(** * nat-updater-aws-connector: a shallow embedding of [main.go] and
    [event.go] (the Event type, Validate, Process, Error, Complete) and of
    the reconciliation loop [updateNat]. *)

From Stdlib Require Import String Ascii List Bool Arith Lia ZArith.
Import ListNotations.
Open Scope string_scope.

(* ------------------------------------------------------------------ *)
(** ** The Event (event.go) *)

(** A Go [[]string]: [None] is the nil slice, [Some l] a non-nil slice
    (possibly empty).  [encoding/json] tells them apart ([null] vs [[]]). *)
Definition strslice := option (list string).

Definition slice_len (s : strslice) : nat :=
  match s with None => 0 | Some l => length l end.

Definition slice_elems (s : strslice) : list string :=
  match s with None => [] | Some l => l end.

Record Event := mkEvent {
  UUID : string;                   (* json:"_uuid" *)
  BatchID : string;                (* json:"_batch_id" *)
  ProviderType : string;           (* json:"_type" *)
  VPCID : string;                  (* json:"vpc_id" *)
  DatacenterRegion : string;       (* json:"datacenter_region" *)
  DatacenterAccessKey : string;    (* json:"datacenter_access_key" *)
  DatacenterAccessToken : string;  (* json:"datacenter_access_token" *)
  PublicNetwork : string;          (* json:"public_network" *)
  PublicNetworkAWSID : string;     (* json:"public_network_aws_id" *)
  RoutedNetworks : strslice;       (* json:"routed_networks" *)
  RoutedNetworkAWSIDs : strslice;  (* json:"routed_networks_aws_ids" *)
  NatGatewayAWSID : string;        (* json:"nat_gateway_aws_id" *)
  NatGatewayAllocationID : string; (* json:"nat_gateway_allocation_id" *)
  NatGatewayAllocationIP : string; (* json:"nat_gateway_allocation_ip" *)
  InternetGatewayID : string;      (* json:"internet_gateway_id" *)
  ErrorMessage : string            (* json:"error,omitempty" *)
}.

(** The zero value [var n Event] of [eventHandler]. *)
Definition zeroEvent : Event :=
  mkEvent "" "" "" "" "" "" "" "" "" None None "" "" "" "" "".

Definition ErrDatacenterIDInvalid := "Datacenter VPC ID invalid".
Definition ErrDatacenterRegionInvalid := "Datacenter Region invalid".
Definition ErrDatacenterCredentialsInvalid := "Datacenter credentials invalid".
Definition ErrNetworkIDInvalid := "Network id invalid".
Definition ErrRoutedNetworksEmpty := "Routed networks are empty".

(** [func (ev *Event) Validate() error]; [None] is [nil], [Some m] the
    sentinel error whose [Error()] is [m]. *)
Definition Validate (ev : Event) : option string :=
  if String.eqb (VPCID ev) "" then Some ErrDatacenterIDInvalid
  else if String.eqb (DatacenterRegion ev) "" then Some ErrDatacenterRegionInvalid
  else if String.eqb (DatacenterAccessKey ev) ""
          || String.eqb (DatacenterAccessToken ev) ""
       then Some ErrDatacenterCredentialsInvalid
  else if String.eqb (PublicNetworkAWSID ev) "" then Some ErrNetworkIDInvalid
  else if Nat.ltb (slice_len (RoutedNetworkAWSIDs ev)) 1 then Some ErrRoutedNetworksEmpty
  else None.

(* ------------------------------------------------------------------ *)
(** ** The EC2 data the reconciler reads (aws-sdk-go [ec2.Route],
    [ec2.RouteTable]); pointer fields are options, [None] being [nil]. *)

Record Route := mkRoute {
  DestinationCidrBlock : option string;
  GatewayId : option string;
  NatGatewayId : option string
}.

Record RouteTable := mkRouteTable {
  RouteTableId : string;
  Routes : list Route
}.

(** The four EC2 operations the code uses, over a provider state [S] and
    an error type [E]; each returns the new provider state and either the
    error or the response.  [DescribeRouteTables] is the call with the
    filter [association.subnet-id = subnet] and returns [resp.RouteTables]
    in the provider's order. *)
Record EC2 (S E : Type) := mkEC2 {
  DescribeRouteTables : string -> S -> S * (E + list RouteTable);
  CreateRouteTable : string -> S -> S * (E + RouteTable);
  AssociateRouteTable : string -> string -> S -> S * (E + unit);
  CreateRoute : string -> string -> string -> S -> S * (E + unit)
}.
Arguments DescribeRouteTables {S E}.
Arguments CreateRouteTable {S E}.
Arguments AssociateRouteTable {S E}.
Arguments CreateRoute {S E}.

(** The adapter calls, as they are logged in the trace. *)
Inductive Call :=
| CDescribeRouteTables (subnet : string)
| CCreateRouteTable (vpc : string)
| CAssociateRouteTable (rt subnet : string)
| CCreateRoute (rt cidr natgw : string).

Definition is_mutating (c : Call) : bool :=
  match c with CDescribeRouteTables _ => false | _ => true end.

(** The subnet a call names in its arguments, if any. *)
Definition call_subnet (c : Call) : option string :=
  match c with
  | CDescribeRouteTables s => Some s
  | CAssociateRouteTable _ s => Some s
  | _ => None
  end.

Definition DefaultCidr := "0.0.0.0/0".

(** [routeTableIsConfigured]: [None] is the nil-pointer dereference
    (a Go panic); Go's [&&] does not evaluate [*route.NatGatewayId]
    when the destination differs. *)
Fixpoint routesConfigured (routes : list Route) (gwID : string) : option bool :=
  match routes with
  | [] => Some false
  | route :: rest =>
      match DestinationCidrBlock route with
      | None => None
      | Some d =>
          if String.eqb d DefaultCidr then
            match NatGatewayId route with
            | None => None
            | Some g => if String.eqb g gwID then Some true
                        else routesConfigured rest gwID
            end
          else routesConfigured rest gwID
      end
  end.

Definition routeTableIsConfigured (rt : RouteTable) (gwID : string) : option bool :=
  routesConfigured (Routes rt) gwID.

(* ------------------------------------------------------------------ *)
(** ** The reconciler (main.go), in a state monad that threads the
    provider state and the trace of adapter calls; [None] as result is a
    panic.  Each trace entry is a call with [Some e] when it failed with
    [e]. *)

Section Reconciler.
Variables (S E : Type) (svc : EC2 S E).

Definition trace := list (Call * option E).
Definition M (A : Type) := S * trace -> (S * trace) * option A.

Definition ret {A} (a : A) : M A := fun st => (st, Some a).
Definition bind {A B} (m : M A) (k : A -> M B) : M B :=
  fun st => match m st with
            | (st', Some a) => k a st'
            | (st', None) => (st', None)
            end.
Definition from_option {A} (o : option A) : M A := fun st => (st, o).

Notation "x <- m ;; k" := (bind m (fun x => k)) (at level 61, m at next level, right associativity).

Definition err_of {A} (r : E + A) : option E :=
  match r with inl e => Some e | inr _ => None end.

(** Issue one adapter call and log it. *)
Definition call {A} (c : Call) (f : S -> S * (E + A)) : M (E + A) :=
  fun '(s, tr) => let '(s', r) := f s in ((s', app tr [(c, err_of r)]), Some r).

(** [routingTableBySubnetID]: [inr None] is [(nil, nil)]. *)
Definition routingTableBySubnetID (subnet : string) : M (E + option RouteTable) :=
  resp <- call (CDescribeRouteTables subnet) (DescribeRouteTables svc subnet) ;;
  match resp with
  | inl err => ret (inl err)
  | inr tables =>
      match tables with
      | [] => ret (inr None)
      | t :: _ => ret (inr (Some t))
      end
  end.

Definition createRouteTable (vpc subnet : string) : M (E + RouteTable) :=
  rt <- routingTableBySubnetID subnet ;;
  match rt with
  | inl err => ret (inl err)
  | inr (Some rt) => ret (inr rt)
  | inr None =>
      resp <- call (CCreateRouteTable vpc) (CreateRouteTable svc vpc) ;;
      match resp with
      | inl err => ret (inl err)
      | inr newrt =>
          a <- call (CAssociateRouteTable (RouteTableId newrt) subnet)
                    (AssociateRouteTable svc (RouteTableId newrt) subnet) ;;
          match a with
          | inl err => ret (inl err)
          | inr _ => ret (inr newrt)
          end
      end
  end.

(** [createNatGatewayRoutes]: the Go [error] result as [option E]. *)
Definition createNatGatewayRoutes (rt : RouteTable) (gwID : string) : M (option E) :=
  r <- call (CCreateRoute (RouteTableId rt) DefaultCidr gwID)
            (CreateRoute svc (RouteTableId rt) DefaultCidr gwID) ;;
  ret (err_of r).

(** The [for _, networkID := range ev.RoutedNetworkAWSIDs] loop. *)
Fixpoint updateNatLoop (vpc gwID : string) (ids : list string) : M (option E) :=
  match ids with
  | [] => ret None
  | networkID :: rest =>
      r <- createRouteTable vpc networkID ;;
      match r with
      | inl err => ret (Some err)
      | inr rt =>
          configured <- from_option (routeTableIsConfigured rt gwID) ;;
          if configured then updateNatLoop vpc gwID rest
          else
            e <- createNatGatewayRoutes rt gwID ;;
            match e with
            | Some err => ret (Some err)
            | None => updateNatLoop vpc gwID rest
            end
      end
  end.

(** [updateNat]: [svc] stands for the EC2 client built from the Event's
    region and static credentials; [ev.DatacenterVPCID] is the [vpc_id]
    field [VPCID]. *)
Definition updateNat (ev : Event) : M (option E) :=
  updateNatLoop (VPCID ev) (NatGatewayAWSID ev) (slice_elems (RoutedNetworkAWSIDs ev)).

(** One iteration of the loop body for [networkID], its result being the
    error the loop returns ([None]: go on with the next subnet). *)
Definition updateNatStep (vpc gwID networkID : string) : M (option E) :=
  r <- createRouteTable vpc networkID ;;
  match r with
  | inl err => ret (Some err)
  | inr rt =>
      configured <- from_option (routeTableIsConfigured rt gwID) ;;
      if configured then ret None else createNatGatewayRoutes rt gwID
  end.

End Reconciler.

(* ------------------------------------------------------------------ *)
(** ** An in-memory EC2 provider, used to run the reconciler.  It follows
    the provider contract of the spec (section 4.2): describe lists the
    tables associated with a subnet in creation order, create-route-table
    creates an empty table with a fresh identifier, associate binds a table
    to a subnet that has no association yet, create-route adds a route
    unless the table already has one for that destination.  Errors are the
    EC2 error codes. *)

Fixpoint digits_aux (fuel n : nat) (acc : string) : string :=
  match fuel with
  | 0 => acc
  | S f =>
      let acc' := String (ascii_of_nat (48 + n mod 10)) acc in
      if Nat.ltb n 10 then acc' else digits_aux f (n / 10) acc'
  end.

Definition string_of_nat (n : nat) : string := digits_aux (S n) n "".

Record TableState := mkTableState {
  ts_id : string;
  ts_vpc : string;
  ts_assoc : list string;
  ts_routes : list Route
}.

Record MemEC2 := mkMemEC2 {
  mem_tables : list TableState;
  mem_next : nat
}.

Definition to_rt (t : TableState) : RouteTable := mkRouteTable (ts_id t) (ts_routes t).

Definition associated (subnet : string) (t : TableState) : bool :=
  existsb (String.eqb subnet) (ts_assoc t).

Definition has_id (id : string) (t : TableState) : bool := String.eqb (ts_id t) id.

Definition has_dest (cidr : string) (r : Route) : bool :=
  match DestinationCidrBlock r with Some d => String.eqb d cidr | None => false end.

Definition mem_describe (subnet : string) (m : MemEC2) : MemEC2 * (string + list RouteTable) :=
  (m, inr (map to_rt (filter (associated subnet) (mem_tables m)))).

Definition mem_create_rt (vpc : string) (m : MemEC2) : MemEC2 * (string + RouteTable) :=
  let id := "rtb-" ++ string_of_nat (mem_next m) in
  if existsb (has_id id) (mem_tables m) then (m, inl "InvalidRouteTableID.Duplicate")
  else (mkMemEC2 (mem_tables m ++ [mkTableState id vpc [] []]) (S (mem_next m)),
        inr (mkRouteTable id [])).

Definition add_assoc (rt subnet : string) (t : TableState) : TableState :=
  if has_id rt t then mkTableState (ts_id t) (ts_vpc t) (ts_assoc t ++ [subnet]) (ts_routes t)
  else t.

Definition mem_associate (rt subnet : string) (m : MemEC2) : MemEC2 * (string + unit) :=
  if negb (existsb (has_id rt) (mem_tables m)) then (m, inl "InvalidRouteTableID.NotFound")
  else if existsb (associated subnet) (mem_tables m) then (m, inl "Resource.AlreadyAssociated")
  else (mkMemEC2 (map (add_assoc rt subnet) (mem_tables m)) (mem_next m), inr tt).

Definition add_route (rt : string) (r : Route) (t : TableState) : TableState :=
  if has_id rt t then mkTableState (ts_id t) (ts_vpc t) (ts_assoc t) (ts_routes t ++ [r])
  else t.

Definition mem_create_route (rt cidr gw : string) (m : MemEC2) : MemEC2 * (string + unit) :=
  if negb (existsb (has_id rt) (mem_tables m)) then (m, inl "InvalidRouteTableID.NotFound")
  else if existsb (fun t => has_id rt t && existsb (has_dest cidr) (ts_routes t)) (mem_tables m)
  then (m, inl "RouteAlreadyExists")
  else (mkMemEC2 (map (add_route rt (mkRoute (Some cidr) None (Some gw))) (mem_tables m))
                 (mem_next m), inr tt).

Definition memEC2 : EC2 MemEC2 string :=
  mkEC2 _ _ mem_describe mem_create_rt mem_associate mem_create_route.

(* ------------------------------------------------------------------ *)
(** ** Test data *)

Definition testEvent : Event :=
  mkEvent "test" "test" "aws" "vpc-0000000" "eu-west-1" "key" "token" ""
          "subnet-00000000" None (Some ["subnet-00000001"]) "nat-0001" "" "" "" "".

Definition natRoute (gw : string) : Route := mkRoute (Some DefaultCidr) None (Some gw).

(** The IPv6 local route of a dual-stack VPC: it has a
    [DestinationIpv6CidrBlock] and no [DestinationCidrBlock]. *)
Definition ipv6LocalRoute : Route := mkRoute None (Some "local") None.

Definition ipv4LocalRoute : Route := mkRoute (Some "10.0.0.0/16") (Some "local") None.

Example run_testEvent :
  snd (updateNat _ _ memEC2 testEvent (mkMemEC2 [] 0, [])) = Some None.
Proof. reflexivity. Qed.

Example run_testEvent_trace :
  snd (fst (updateNat _ _ memEC2 testEvent (mkMemEC2 [] 0, []))) =
  [(CDescribeRouteTables "subnet-00000001", None);
   (CCreateRouteTable "vpc-0000000", None);
   (CAssociateRouteTable "rtb-0" "subnet-00000001", None);
   (CCreateRoute "rtb-0" DefaultCidr "nat-0001", None)].
Proof. reflexivity. Qed.

(** Route classification for [routeTableIsConfigured]: a route whose
    scan dereferences a nil pointer, and a route that is the target
    default route. *)
Definition route_malformed (r : Route) : bool :=
  match DestinationCidrBlock r with
  | None => true
  | Some d => String.eqb d DefaultCidr &&
              match NatGatewayId r with None => true | Some _ => false end
  end.

Definition route_matches (gw : string) (r : Route) : bool :=
  match DestinationCidrBlock r, NatGatewayId r with
  | Some d, Some g => String.eqb d DefaultCidr && String.eqb g gw
  | _, _ => false
  end.

Definition route_passed (gw : string) (r : Route) : bool :=
  negb (route_malformed r || route_matches gw r).

(** A dual-stack VPC: [subnet-1]'s table lists the IPv4 local route, the
    IPv6 local route and the target NAT route; [subnet-2]'s table is
    already configured too. *)
Definition dualStackState : MemEC2 :=
  mkMemEC2
    [mkTableState "rtb-1" "vpc-1" ["subnet-1"]
                  [ipv4LocalRoute; ipv6LocalRoute; natRoute "nat-1"];
     mkTableState "rtb-2" "vpc-1" ["subnet-2"] [ipv4LocalRoute; natRoute "nat-1"]]
    3.

Definition dualStackEvent : Event :=
  mkEvent "test" "test" "aws" "vpc-1" "eu-west-1" "key" "token" ""
          "subnet-0" None (Some ["subnet-1"; "subnet-2"]) "nat-1" "" "" "" "".

(** Facts of the in-memory provider used to run the reconciler twice. *)
Definition first_table (m : MemEC2) (subnet : string) : option TableState :=
  hd_error (filter (associated subnet) (mem_tables m)).

(** [subnet] has an associated table whose route scan returns true. *)
Definition configured_in (gw : string) (m : MemEC2) (subnet : string) : Prop :=
  exists t, first_table m subnet = Some t /\ routesConfigured (ts_routes t) gw = Some true.

(** The successful mutations of the provider, associations being limited
    to the subnets [ys]. *)
Inductive mem_step (ys : list string) : MemEC2 -> MemEC2 -> Prop :=
| ms_create vpc m m' r :
    mem_create_rt vpc m = (m', inr r) -> mem_step ys m m'
| ms_assoc id y m m' :
    In y ys -> mem_associate id y m = (m', inr tt) -> mem_step ys m m'
| ms_route id c g m m' :
    mem_create_route id c g m = (m', inr tt) -> mem_step ys m m'.

Inductive mem_steps (ys : list string) : MemEC2 -> MemEC2 -> Prop :=
| mss_refl m : mem_steps ys m m
| mss_step m1 m2 m3 : mem_step ys m1 m2 -> mem_steps ys m2 m3 -> mem_steps ys m1 m3.

(* ------------------------------------------------------------------ *)
(** ** Bytes and runes (Go's [unicode/utf8] and [unicode/utf16]).

    A Go [string] or [[]byte] is a Rocq [string]: a sequence of 8-bit
    [ascii] characters.  A rune is a [Z]. *)

Section Runes.
Local Open Scope Z_scope.

Definition byte (c : ascii) : Z := Z.of_N (N_of_ascii c).
Definition chr (b : Z) : ascii := ascii_of_N (Z.to_N b).

Definition RuneError : Z := 0xFFFD.
Definition RuneSelf : Z := 0x80.
Definition MaxRune : Z := 0x10FFFF.
Definition surrogateMin : Z := 0xD800.
Definition surrogateMax : Z := 0xDFFF.

Definition t2 : Z := 0xC0.
Definition t3 : Z := 0xE0.
Definition t4 : Z := 0xF0.
Definition tx : Z := 0x80.
Definition maskx : Z := 0x3F.
Definition mask2 : Z := 0x1F.
Definition mask3 : Z := 0x0F.
Definition mask4 : Z := 0x07.
Definition rune1Max : Z := 0x7F.
Definition rune2Max : Z := 0x7FF.
Definition rune3Max : Z := 0xFFFF.
Definition locb : Z := 0x80.
Definition hicb : Z := 0xBF.

(** [first[p0]] with [acceptRanges] (utf8.go) for a leading byte
    [p0 >= RuneSelf]: the width of the sequence and the range of its
    second byte; [None] for the bytes marked [xx]. *)
Definition first (p0 : Z) : option (nat * (Z * Z)) :=
  if (0xC2 <=? p0) && (p0 <=? 0xDF) then Some (2%nat, (0x80, 0xBF))
  else if p0 =? 0xE0 then Some (3%nat, (0xA0, 0xBF))
  else if (0xE1 <=? p0) && (p0 <=? 0xEC) then Some (3%nat, (0x80, 0xBF))
  else if p0 =? 0xED then Some (3%nat, (0x80, 0x9F))
  else if (0xEE <=? p0) && (p0 <=? 0xEF) then Some (3%nat, (0x80, 0xBF))
  else if p0 =? 0xF0 then Some (4%nat, (0x90, 0xBF))
  else if (0xF1 <=? p0) && (p0 <=? 0xF3) then Some (4%nat, (0x80, 0xBF))
  else if p0 =? 0xF4 then Some (4%nat, (0x80, 0x8F))
  else None.

(** [utf8.DecodeRune]: the first rune of [p] and its width;
    [(RuneError, 1)] for an invalid or short encoding and
    [(RuneError, 0)] for an empty [p]. *)
Definition DecodeRune (p : string) : Z * nat :=
  match p with
  | EmptyString => (RuneError, 0%nat)
  | String c0 p1 =>
    let p0 := byte c0 in
    if p0 <? RuneSelf then (p0, 1%nat) else
    match first p0 with
    | None => (RuneError, 1%nat)
    | Some (sz, (lo, hi)) =>
      if Nat.ltb (String.length p) sz then (RuneError, 1%nat) else
      match p1 with
      | EmptyString => (RuneError, 1%nat)
      | String c1 p2 =>
        let b1 := byte c1 in
        if (b1 <? lo) || (hi <? b1) then (RuneError, 1%nat)
        else if Nat.eqb sz 2 then
          (Z.lor (Z.shiftl (Z.land p0 mask2) 6) (Z.land b1 maskx), 2%nat)
        else
        match p2 with
        | EmptyString => (RuneError, 1%nat)
        | String c2 p3 =>
          let b2 := byte c2 in
          if (b2 <? locb) || (hicb <? b2) then (RuneError, 1%nat)
          else if Nat.eqb sz 3 then
            (Z.lor (Z.lor (Z.shiftl (Z.land p0 mask3) 12)
                          (Z.shiftl (Z.land b1 maskx) 6))
                   (Z.land b2 maskx), 3%nat)
          else
          match p3 with
          | EmptyString => (RuneError, 1%nat)
          | String c3 _ =>
            let b3 := byte c3 in
            if (b3 <? locb) || (hicb <? b3) then (RuneError, 1%nat)
            else
              (Z.lor (Z.lor (Z.lor (Z.shiftl (Z.land p0 mask4) 18)
                                   (Z.shiftl (Z.land b1 maskx) 12))
                            (Z.shiftl (Z.land b2 maskx) 6))
                     (Z.land b3 maskx), 4%nat)
          end
        end
      end
    end
  end.

(** [byte(x)], Go's conversion to [uint8]. *)
Definition to_byte (x : Z) : Z := Z.land x 0xFF.

(** [utf8.EncodeRune]: the UTF-8 encoding of [r]; an out-of-range rune or
    a surrogate is encoded as [RuneError]. *)
Definition EncodeRune (r : Z) : string :=
  let i := Z.land r 0xFFFFFFFF in
  if i <=? rune1Max then String (chr (to_byte r)) EmptyString
  else if i <=? rune2Max then
    String (chr (Z.lor t2 (to_byte (Z.shiftr r 6))))
   (String (chr (Z.lor tx (Z.land (to_byte r) maskx))) EmptyString)
  else
    let bad := (MaxRune <? i) || ((surrogateMin <=? i) && (i <=? surrogateMax)) in
    let r := if bad then RuneError else r in
    if bad || (i <=? rune3Max) then
      String (chr (Z.lor t3 (to_byte (Z.shiftr r 12))))
     (String (chr (Z.lor tx (Z.land (to_byte (Z.shiftr r 6)) maskx)))
     (String (chr (Z.lor tx (Z.land (to_byte r) maskx))) EmptyString))
    else
      String (chr (Z.lor t4 (to_byte (Z.shiftr r 18))))
     (String (chr (Z.lor tx (Z.land (to_byte (Z.shiftr r 12)) maskx)))
     (String (chr (Z.lor tx (Z.land (to_byte (Z.shiftr r 6)) maskx)))
     (String (chr (Z.lor tx (Z.land (to_byte r) maskx))) EmptyString))).

(** [utf16.IsSurrogate] and [utf16.DecodeRune]. *)
Definition IsSurrogate (r : Z) : bool := (0xD800 <=? r) && (r <? 0xE000).

Definition utf16_DecodeRune (r1 r2 : Z) : Z :=
  if (0xD800 <=? r1) && (r1 <? 0xDC00) && (0xDC00 <=? r2) && (r2 <? 0xE000)
  then Z.lor (Z.shiftl (r1 - 0xD800) 10) (r2 - 0xDC00) + 0x10000
  else RuneError.

End Runes.

(** [s[n:]] and [s[:n]], clamped. *)
Fixpoint str_drop (n : nat) (s : string) : string :=
  match n, s with
  | O, _ => s
  | S _, EmptyString => EmptyString
  | S n', String _ s' => str_drop n' s'
  end.

Fixpoint str_take (n : nat) (s : string) : string :=
  match n, s with
  | O, _ => EmptyString
  | S _, EmptyString => EmptyString
  | S n', String c s' => String c (str_take n' s')
  end.

(** [utf8.ValidString], written with [DecodeRune] (utf8.go inlines the
    same [first]/[acceptRanges] tests); one iteration per rune, so
    [String.length s] iterations suffice. *)
Fixpoint ValidString_loop (fuel : nat) (s : string) : bool :=
  match fuel with
  | O => true
  | S fuel' =>
    match s with
    | EmptyString => true
    | String c rest =>
      if (byte c <? RuneSelf)%Z then ValidString_loop fuel' rest
      else
        let '(r, size) := DecodeRune s in
        if (r =? RuneError)%Z && Nat.eqb size 1 then false
        else ValidString_loop fuel' (str_drop size s)
    end
  end.

Definition ValidString (s : string) : bool := ValidString_loop (String.length s) s.
(* ------------------------------------------------------------------ *)
(** ** [encoding/json]: the encoder of a string ([encodeState.string],
    with [escapeHTML] set, as [json.Marshal] does).  The encoder writes
    unchanged runs of bytes in one call; writing them byte by byte, as
    here, gives the same output.  Control bytes other than [\n], [\r],
    [\t] are written [\u00XX]. *)

Definition quote : ascii := "034"%char.
Definition bs : ascii := "\"%char.

Definition hex (n : Z) : ascii :=
  match String.get (Z.to_nat n) "0123456789abcdef" with
  | Some c => c
  | None => "0"%char
  end.

(** [htmlSafeSet[b]] for an ASCII byte [b]. *)
Definition htmlSafe (b : Z) : bool :=
  ((0x20 <=? b) && negb ((b =? 0x22) || (b =? 0x5C) || (b =? 0x3C)
                         || (b =? 0x3E) || (b =? 0x26)))%Z.

(** The escape written for an ASCII byte that is not [htmlSafe]. *)
Definition escapeASCII (b : Z) : string :=
  if ((b =? 0x5C) || (b =? 0x22))%Z then String bs (String (chr b) EmptyString)
  else if (b =? 0x0A)%Z then "\n"
  else if (b =? 0x0D)%Z then "\r"
  else if (b =? 0x09)%Z then "\t"
  else "\u00" ++ String (hex (Z.shiftr b 4)) (String (hex (Z.land b 0xF)) EmptyString).

Fixpoint encString_loop (fuel : nat) (s : string) : string :=
  match fuel with
  | O => EmptyString
  | S fuel' =>
    match s with
    | EmptyString => EmptyString
    | String c rest =>
      let b := byte c in
      if (b <? RuneSelf)%Z then
        (if htmlSafe b then String c EmptyString else escapeASCII b)
          ++ encString_loop fuel' rest
      else
        let '(r, size) := DecodeRune s in
        if (r =? RuneError)%Z && Nat.eqb size 1 then
          "\ufffd" ++ encString_loop fuel' rest
        else if ((r =? 0x2028) || (r =? 0x2029))%Z then
          "\u202" ++ String (hex (Z.land r 0xF)) EmptyString
            ++ encString_loop fuel' (str_drop size s)
        else str_take size s ++ encString_loop fuel' (str_drop size s)
    end
  end.

(** The body of the JSON string literal of [s] (without its quotes). *)
Definition encString (s : string) : string := encString_loop (String.length s) s.

Definition quoteString (s : string) : string :=
  String quote (encString s ++ String quote EmptyString).

(* ------------------------------------------------------------------ *)
(** ** [encoding/json]: decoding a string literal ([unquoteBytes] with
    [getu4]), applied to the bytes between the quotes. *)

Definition isHex (c : ascii) : bool :=
  let b := byte c in
  ((0x30 <=? b) && (b <=? 0x39) || (0x61 <=? b) && (b <=? 0x66)
   || (0x41 <=? b) && (b <=? 0x46))%Z.

Definition hexVal (c : ascii) : Z :=
  let b := byte c in
  if (b <=? 0x39)%Z then (b - 0x30)%Z
  else if (b <=? 0x46)%Z then (b - 0x41 + 10)%Z
  else (b - 0x61 + 10)%Z.

(** [getu4]: the value of a [\uXXXX] escape at the start of [s], or -1. *)
Definition getu4 (s : string) : Z :=
  match s with
  | String c0 (String c1 (String h1 (String h2 (String h3 (String h4 _))))) =>
    if Ascii.eqb c0 bs && Ascii.eqb c1 "u"%char
       && isHex h1 && isHex h2 && isHex h3 && isHex h4
    then (((hexVal h1 * 16 + hexVal h2) * 16 + hexVal h3) * 16 + hexVal h4)%Z
    else (-1)%Z
  | _ => (-1)%Z
  end.

(** The slow path of [unquoteBytes], from the first byte that needs
    work; [None] where it returns [ok = false]. *)
Fixpoint unquote_loop (fuel : nat) (s : string) : option string :=
  match fuel with
  | O => Some EmptyString
  | S fuel' =>
    match s with
    | EmptyString => Some EmptyString
    | String c rest =>
      if Ascii.eqb c bs then
        match rest with
        | EmptyString => None
        | String e rest' =>
          if Ascii.eqb e quote || Ascii.eqb e bs || Ascii.eqb e "/"%char
             || Ascii.eqb e "'"%char then
            option_map (String e) (unquote_loop fuel' rest')
          else if Ascii.eqb e "b"%char then option_map (String "008"%char) (unquote_loop fuel' rest')
          else if Ascii.eqb e "f"%char then option_map (String "012"%char) (unquote_loop fuel' rest')
          else if Ascii.eqb e "n"%char then option_map (String "010"%char) (unquote_loop fuel' rest')
          else if Ascii.eqb e "r"%char then option_map (String "013"%char) (unquote_loop fuel' rest')
          else if Ascii.eqb e "t"%char then option_map (String "009"%char) (unquote_loop fuel' rest')
          else if Ascii.eqb e "u"%char then
            let rr := getu4 s in
            if (rr <? 0)%Z then None
            else
              let s6 := str_drop 6 s in
              if IsSurrogate rr then
                let dec := utf16_DecodeRune rr (getu4 s6) in
                if negb (dec =? RuneError)%Z then
                  option_map (append (EncodeRune dec)) (unquote_loop fuel' (str_drop 6 s6))
                else option_map (append (EncodeRune RuneError)) (unquote_loop fuel' s6)
              else option_map (append (EncodeRune rr)) (unquote_loop fuel' s6)
          else None
        end
      else if Ascii.eqb c quote || (byte c <? 0x20)%Z then None
      else if (byte c <? RuneSelf)%Z then option_map (String c) (unquote_loop fuel' rest)
      else
        let '(rr, size) := DecodeRune s in
        option_map (append (EncodeRune rr)) (unquote_loop fuel' (str_drop size s))
    end
  end.

(** The fast path of [unquoteBytes]: the index at which its scan for
    "unusual characters" stops. *)
Fixpoint unquote_scan (fuel : nat) (s : string) : nat :=
  match fuel with
  | O => O
  | S fuel' =>
    match s with
    | EmptyString => O
    | String c rest =>
      if Ascii.eqb c bs || Ascii.eqb c quote || (byte c <? 0x20)%Z then O
      else if (byte c <? RuneSelf)%Z then S (unquote_scan fuel' rest)
      else
        let '(rr, size) := DecodeRune s in
        if (rr =? RuneError)%Z && Nat.eqb size 1 then O
        else size + unquote_scan fuel' (str_drop size s)
    end
  end.

Definition unquote (s : string) : option string :=
  let r := unquote_scan (String.length s) s in
  if Nat.eqb r (String.length s) then Some s
  else option_map (append (str_take r s)) (unquote_loop (String.length s) (str_drop r s)).

(* ------------------------------------------------------------------ *)
(** ** [encoding/json]: the syntax of a JSON text ([checkValid] and the
    scanner).  The scan also returns the value read, which the decoder
    then walks; string literals keep their undecoded bytes. *)

Inductive JValue :=
| JNull
| JBool (b : bool)
| JNumber (lit : string)
| JString (raw : string)
| JArray (elems : list JValue)
| JObject (members : list (string * JValue)).

Definition isSpace (c : ascii) : bool :=
  Ascii.eqb c " "%char || Ascii.eqb c "009"%char || Ascii.eqb c "010"%char
  || Ascii.eqb c "013"%char.

Fixpoint skip_ws (s : string) : string :=
  match s with
  | String c rest => if isSpace c then skip_ws rest else s
  | EmptyString => s
  end.

(** The body of a string literal, after its opening quote: the bytes up to
    the closing quote, and what follows it. *)
Fixpoint scan_string (s : string) : option (string * string) :=
  match s with
  | EmptyString => None
  | String c rest =>
    if Ascii.eqb c quote then Some (EmptyString, rest)
    else if Ascii.eqb c bs then
      match rest with
      | EmptyString => None
      | String e rest' =>
        if Ascii.eqb e quote || Ascii.eqb e bs || Ascii.eqb e "/"%char
           || Ascii.eqb e "b"%char || Ascii.eqb e "f"%char || Ascii.eqb e "n"%char
           || Ascii.eqb e "r"%char || Ascii.eqb e "t"%char then
          option_map (fun '(b, r) => (String c (String e b), r)) (scan_string rest')
        else if Ascii.eqb e "u"%char then
          match rest' with
          | String h1 (String h2 (String h3 (String h4 rest''))) =>
            if isHex h1 && isHex h2 && isHex h3 && isHex h4 then
              option_map
                (fun '(b, r) =>
                   (String c (String e (String h1 (String h2 (String h3 (String h4 b))))), r))
                (scan_string rest'')
            else None
          | _ => None
          end
        else None
      end
    else if (byte c <? 0x20)%Z then None
    else option_map (fun '(b, r) => (String c b, r)) (scan_string rest)
  end.

Definition isDigit (c : ascii) : bool := ((0x30 <=? byte c) && (byte c <=? 0x39))%Z.

Fixpoint scan_digits (s : string) : string * string :=
  match s with
  | String c rest =>
    if isDigit c then let '(d, r) := scan_digits rest in (String c d, r)
    else (EmptyString, s)
  | EmptyString => (EmptyString, EmptyString)
  end.

(** A number: [-?(0|[1-9][0-9]* )(.[0-9]+)?([eE][+-]?[0-9]+)?]. *)
Definition scan_exponent (s : string) : option (string * string) :=
  match s with
  | String e rest =>
    if Ascii.eqb e "e"%char || Ascii.eqb e "E"%char then
      let '(sgn, rest') :=
        match rest with
        | String c r => if Ascii.eqb c "+"%char || Ascii.eqb c "-"%char
                        then (String c EmptyString, r) else (EmptyString, rest)
        | EmptyString => (EmptyString, rest)
        end in
      let '(d, r) := scan_digits rest' in
      if String.eqb d EmptyString then None else Some (String e (sgn ++ d), r)
    else Some (EmptyString, s)
  | EmptyString => Some (EmptyString, s)
  end.

Definition scan_fraction (s : string) : option (string * string) :=
  match s with
  | String c rest =>
    if Ascii.eqb c "."%char then
      let '(d, r) := scan_digits rest in
      if String.eqb d EmptyString then None else Some (String c d, r)
    else Some (EmptyString, s)
  | EmptyString => Some (EmptyString, s)
  end.

Definition scan_number (s : string) : option (string * string) :=
  let '(sgn, s1) :=
    match s with
    | String c r => if Ascii.eqb c "-"%char then (String c EmptyString, r) else (EmptyString, s)
    | EmptyString => (EmptyString, s)
    end in
  let int :=
    match s1 with
    | String c r =>
      if Ascii.eqb c "0"%char then Some (String c EmptyString, r)
      else if isDigit c then let '(d, r') := scan_digits r in Some (String c d, r')
      else None
    | EmptyString => None
    end in
  match int with
  | None => None
  | Some (i, r1) =>
    match scan_fraction r1 with
    | None => None
    | Some (fr, r2) =>
      match scan_exponent r2 with
      | None => None
      | Some (ex, r3) => Some (sgn ++ i ++ fr ++ ex, r3)
      end
    end
  end.

Definition scan_literal (lit : string) (s : string) : option string :=
  if String.prefix lit s then Some (str_drop (String.length lit) s) else None.

(** One JSON value after optional white space.  Every call consumes at
    least one byte before it recurses, so [String.length s + 1] units of
    [fuel] are enough. *)
Fixpoint parse_value (fuel : nat) (s : string) : option (JValue * string) :=
  match fuel with
  | O => None
  | S fuel' =>
    match skip_ws s with
    | EmptyString => None
    | String c rest =>
      if Ascii.eqb c "{"%char then
        match skip_ws rest with
        | String c' rest' =>
          if Ascii.eqb c' "}"%char then Some (JObject [], rest')
          else parse_members fuel' (skip_ws rest) []
        | EmptyString => None
        end
      else if Ascii.eqb c "["%char then
        match skip_ws rest with
        | String c' rest' =>
          if Ascii.eqb c' "]"%char then Some (JArray [], rest')
          else parse_elems fuel' rest []
        | EmptyString => None
        end
      else if Ascii.eqb c quote then
        option_map (fun '(b, r) => (JString b, r)) (scan_string rest)
      else if Ascii.eqb c "t"%char then
        option_map (fun r => (JBool true, r)) (scan_literal "true" (String c rest))
      else if Ascii.eqb c "f"%char then
        option_map (fun r => (JBool false, r)) (scan_literal "false" (String c rest))
      else if Ascii.eqb c "n"%char then
        option_map (fun r => (JNull, r)) (scan_literal "null" (String c rest))
      else if Ascii.eqb c "-"%char || isDigit c then
        option_map (fun '(n, r) => (JNumber n, r)) (scan_number (String c rest))
      else None
    end
  end
with parse_elems (fuel : nat) (s : string) (acc : list JValue)
    : option (JValue * string) :=
  match fuel with
  | O => None
  | S fuel' =>
    match parse_value fuel' s with
    | None => None
    | Some (v, r) =>
      match skip_ws r with
      | String c r' =>
        if Ascii.eqb c ","%char then parse_elems fuel' r' (app acc [v])
        else if Ascii.eqb c "]"%char then Some (JArray (app acc [v]), r')
        else None
      | EmptyString => None
      end
    end
  end
with parse_members (fuel : nat) (s : string) (acc : list (string * JValue))
    : option (JValue * string) :=
  match fuel with
  | O => None
  | S fuel' =>
    match s with
    | String q rest =>
      if Ascii.eqb q quote then
        match scan_string rest with
        | None => None
        | Some (k, r1) =>
          match skip_ws r1 with
          | String c r2 =>
            if Ascii.eqb c ":"%char then
              match parse_value fuel' r2 with
              | None => None
              | Some (v, r3) =>
                match skip_ws r3 with
                | String c' r4 =>
                  if Ascii.eqb c' ","%char then parse_members fuel' (skip_ws r4) (app acc [(k, v)])
                  else if Ascii.eqb c' "}"%char then Some (JObject (app acc [(k, v)]), r4)
                  else None
                | EmptyString => None
                end
              end
            else None
          | EmptyString => None
          end
        end
      else None
    | EmptyString => None
    end
  end.

(** [checkValid] followed by the decoder's walk: the single JSON value of
    [data], surrounded by nothing but white space. *)
Definition checkValid (data : string) : option JValue :=
  match parse_value (S (String.length data)) data with
  | Some (v, rest) => if String.eqb (skip_ws rest) EmptyString then Some v else None
  | None => None
  end.
(* ------------------------------------------------------------------ *)
(** ** [encoding/json]: matching an object key to a field.  A key that
    equals a field's name wins; otherwise the first field whose name
    folds to the key ([foldFunc] of fold.go picks the fold). *)

Definition caseMask : Z := 0xDF.
Definition kelvin : Z := 0x212A.
Definition smallLongEss : Z := 0x17F.

Definition isASCIILetter (c : ascii) : bool :=
  let b := byte c in ((0x61 <=? b) && (b <=? 0x7A) || (0x41 <=? b) && (b <=? 0x5A))%Z.

Fixpoint asciiEqualFold (s t : string) : bool :=
  match s, t with
  | EmptyString, EmptyString => true
  | String sb s', String tb t' =>
    (Ascii.eqb sb tb
     || isASCIILetter sb && (Z.land (byte sb) caseMask =? Z.land (byte tb) caseMask)%Z)
    && asciiEqualFold s' t'
  | _, _ => false
  end.

Fixpoint simpleLetterEqualFold (s t : string) : bool :=
  match s, t with
  | EmptyString, EmptyString => true
  | String b s', String tb t' =>
    (Z.land (byte b) caseMask =? Z.land (byte tb) caseMask)%Z && simpleLetterEqualFold s' t'
  | _, _ => false
  end.

Fixpoint equalFoldRight (s t : string) : bool :=
  match s with
  | EmptyString => String.eqb t EmptyString
  | String sb s' =>
    match t with
    | EmptyString => false
    | String tb t' =>
      if (byte tb <? RuneSelf)%Z then
        if Ascii.eqb sb tb then equalFoldRight s' t'
        else
          let sbUpper := Z.land (byte sb) caseMask in
          if ((0x41 <=? sbUpper) && (sbUpper <=? 0x5A))%Z
          then (sbUpper =? Z.land (byte tb) caseMask)%Z && equalFoldRight s' t'
          else false
      else
        let '(tr, size) := DecodeRune t in
        if Ascii.eqb sb "s"%char || Ascii.eqb sb "S"%char then
          (tr =? smallLongEss)%Z && equalFoldRight s' (str_drop size t)
        else if Ascii.eqb sb "k"%char || Ascii.eqb sb "K"%char then
          (tr =? kelvin)%Z && equalFoldRight s' (str_drop size t)
        else false
    end
  end.

Inductive FoldFunc := FoldBytes | FoldRight | FoldASCII | FoldSimpleLetter.

(** [foldFunc]: [nonLetter] and [special] as computed over the name. *)
Fixpoint foldFunc_scan (s : string) (nonLetter special : bool) : FoldFunc :=
  match s with
  | EmptyString =>
    if special then FoldRight else if nonLetter then FoldASCII else FoldSimpleLetter
  | String b rest =>
    if (RuneSelf <=? byte b)%Z then FoldBytes
    else
      let upper := Z.land (byte b) caseMask in
      if ((upper <? 0x41) || (0x5A <? upper))%Z then foldFunc_scan rest true special
      else if ((upper =? 0x4B) || (upper =? 0x53))%Z then foldFunc_scan rest nonLetter true
      else foldFunc_scan rest nonLetter special
  end.

Definition foldFunc (name : string) : FoldFunc := foldFunc_scan name false false.

(** [bytes.EqualFold] is chosen only for a name with a non-ASCII byte; no
    tag of [Event] has one, so it is not modelled. *)
Definition equalFold (ff : FoldFunc) (s t : string) : bool :=
  match ff with
  | FoldBytes => false
  | FoldRight => equalFoldRight s t
  | FoldASCII => asciiEqualFold s t
  | FoldSimpleLetter => simpleLetterEqualFold s t
  end.
(** The fields of [Event] as [encoding/json] sees them, in declaration
    order (the order of [cachedTypeFields]). *)
Inductive Field :=
| F_UUID
| F_BatchID
| F_ProviderType
| F_VPCID
| F_DatacenterRegion
| F_DatacenterAccessKey
| F_DatacenterAccessToken
| F_PublicNetwork
| F_PublicNetworkAWSID
| F_RoutedNetworks
| F_RoutedNetworkAWSIDs
| F_NatGatewayAWSID
| F_NatGatewayAllocationID
| F_NatGatewayAllocationIP
| F_InternetGatewayID
| F_ErrorMessage.

Definition eventFields : list Field :=
  [F_UUID; F_BatchID; F_ProviderType; F_VPCID; F_DatacenterRegion; F_DatacenterAccessKey; F_DatacenterAccessToken; F_PublicNetwork; F_PublicNetworkAWSID; F_RoutedNetworks; F_RoutedNetworkAWSIDs; F_NatGatewayAWSID; F_NatGatewayAllocationID; F_NatGatewayAllocationIP; F_InternetGatewayID; F_ErrorMessage].

(** The name of each field's [json] tag. *)
Definition fieldName (f : Field) : string :=
  match f with
  | F_UUID => "_uuid"
  | F_BatchID => "_batch_id"
  | F_ProviderType => "_type"
  | F_VPCID => "vpc_id"
  | F_DatacenterRegion => "datacenter_region"
  | F_DatacenterAccessKey => "datacenter_access_key"
  | F_DatacenterAccessToken => "datacenter_access_token"
  | F_PublicNetwork => "public_network"
  | F_PublicNetworkAWSID => "public_network_aws_id"
  | F_RoutedNetworks => "routed_networks"
  | F_RoutedNetworkAWSIDs => "routed_networks_aws_ids"
  | F_NatGatewayAWSID => "nat_gateway_aws_id"
  | F_NatGatewayAllocationID => "nat_gateway_allocation_id"
  | F_NatGatewayAllocationIP => "nat_gateway_allocation_ip"
  | F_InternetGatewayID => "internet_gateway_id"
  | F_ErrorMessage => "error"
  end.

(** Only [ErrorMessage] is tagged [omitempty]. *)
Definition fieldOmitEmpty (f : Field) : bool :=
  match f with F_ErrorMessage => true | _ => false end.

(** A field's value: a Go [string] or a [[]string]. *)
Inductive FieldValue :=
| FString (s : string)
| FSlice (v : strslice).

Definition getField (f : Field) (ev : Event) : FieldValue :=
  match f with
  | F_UUID => FString (UUID ev)
  | F_BatchID => FString (BatchID ev)
  | F_ProviderType => FString (ProviderType ev)
  | F_VPCID => FString (VPCID ev)
  | F_DatacenterRegion => FString (DatacenterRegion ev)
  | F_DatacenterAccessKey => FString (DatacenterAccessKey ev)
  | F_DatacenterAccessToken => FString (DatacenterAccessToken ev)
  | F_PublicNetwork => FString (PublicNetwork ev)
  | F_PublicNetworkAWSID => FString (PublicNetworkAWSID ev)
  | F_RoutedNetworks => FSlice (RoutedNetworks ev)
  | F_RoutedNetworkAWSIDs => FSlice (RoutedNetworkAWSIDs ev)
  | F_NatGatewayAWSID => FString (NatGatewayAWSID ev)
  | F_NatGatewayAllocationID => FString (NatGatewayAllocationID ev)
  | F_NatGatewayAllocationIP => FString (NatGatewayAllocationIP ev)
  | F_InternetGatewayID => FString (InternetGatewayID ev)
  | F_ErrorMessage => FString (ErrorMessage ev)
  end.

(** Assignment to a field; a value of the other kind leaves the Event
    as it is (the decoder never produces one). *)
Definition setField (f : Field) (v : FieldValue) (ev : Event) : Event :=
  match f, v with
  | F_UUID, FString x =>
      mkEvent x (BatchID ev) (ProviderType ev) (VPCID ev) (DatacenterRegion ev) (DatacenterAccessKey ev) (DatacenterAccessToken ev) (PublicNetwork ev) (PublicNetworkAWSID ev) (RoutedNetworks ev) (RoutedNetworkAWSIDs ev) (NatGatewayAWSID ev) (NatGatewayAllocationID ev) (NatGatewayAllocationIP ev) (InternetGatewayID ev) (ErrorMessage ev)
  | F_BatchID, FString x =>
      mkEvent (UUID ev) x (ProviderType ev) (VPCID ev) (DatacenterRegion ev) (DatacenterAccessKey ev) (DatacenterAccessToken ev) (PublicNetwork ev) (PublicNetworkAWSID ev) (RoutedNetworks ev) (RoutedNetworkAWSIDs ev) (NatGatewayAWSID ev) (NatGatewayAllocationID ev) (NatGatewayAllocationIP ev) (InternetGatewayID ev) (ErrorMessage ev)
  | F_ProviderType, FString x =>
      mkEvent (UUID ev) (BatchID ev) x (VPCID ev) (DatacenterRegion ev) (DatacenterAccessKey ev) (DatacenterAccessToken ev) (PublicNetwork ev) (PublicNetworkAWSID ev) (RoutedNetworks ev) (RoutedNetworkAWSIDs ev) (NatGatewayAWSID ev) (NatGatewayAllocationID ev) (NatGatewayAllocationIP ev) (InternetGatewayID ev) (ErrorMessage ev)
  | F_VPCID, FString x =>
      mkEvent (UUID ev) (BatchID ev) (ProviderType ev) x (DatacenterRegion ev) (DatacenterAccessKey ev) (DatacenterAccessToken ev) (PublicNetwork ev) (PublicNetworkAWSID ev) (RoutedNetworks ev) (RoutedNetworkAWSIDs ev) (NatGatewayAWSID ev) (NatGatewayAllocationID ev) (NatGatewayAllocationIP ev) (InternetGatewayID ev) (ErrorMessage ev)
  | F_DatacenterRegion, FString x =>
      mkEvent (UUID ev) (BatchID ev) (ProviderType ev) (VPCID ev) x (DatacenterAccessKey ev) (DatacenterAccessToken ev) (PublicNetwork ev) (PublicNetworkAWSID ev) (RoutedNetworks ev) (RoutedNetworkAWSIDs ev) (NatGatewayAWSID ev) (NatGatewayAllocationID ev) (NatGatewayAllocationIP ev) (InternetGatewayID ev) (ErrorMessage ev)
  | F_DatacenterAccessKey, FString x =>
      mkEvent (UUID ev) (BatchID ev) (ProviderType ev) (VPCID ev) (DatacenterRegion ev) x (DatacenterAccessToken ev) (PublicNetwork ev) (PublicNetworkAWSID ev) (RoutedNetworks ev) (RoutedNetworkAWSIDs ev) (NatGatewayAWSID ev) (NatGatewayAllocationID ev) (NatGatewayAllocationIP ev) (InternetGatewayID ev) (ErrorMessage ev)
  | F_DatacenterAccessToken, FString x =>
      mkEvent (UUID ev) (BatchID ev) (ProviderType ev) (VPCID ev) (DatacenterRegion ev) (DatacenterAccessKey ev) x (PublicNetwork ev) (PublicNetworkAWSID ev) (RoutedNetworks ev) (RoutedNetworkAWSIDs ev) (NatGatewayAWSID ev) (NatGatewayAllocationID ev) (NatGatewayAllocationIP ev) (InternetGatewayID ev) (ErrorMessage ev)
  | F_PublicNetwork, FString x =>
      mkEvent (UUID ev) (BatchID ev) (ProviderType ev) (VPCID ev) (DatacenterRegion ev) (DatacenterAccessKey ev) (DatacenterAccessToken ev) x (PublicNetworkAWSID ev) (RoutedNetworks ev) (RoutedNetworkAWSIDs ev) (NatGatewayAWSID ev) (NatGatewayAllocationID ev) (NatGatewayAllocationIP ev) (InternetGatewayID ev) (ErrorMessage ev)
  | F_PublicNetworkAWSID, FString x =>
      mkEvent (UUID ev) (BatchID ev) (ProviderType ev) (VPCID ev) (DatacenterRegion ev) (DatacenterAccessKey ev) (DatacenterAccessToken ev) (PublicNetwork ev) x (RoutedNetworks ev) (RoutedNetworkAWSIDs ev) (NatGatewayAWSID ev) (NatGatewayAllocationID ev) (NatGatewayAllocationIP ev) (InternetGatewayID ev) (ErrorMessage ev)
  | F_RoutedNetworks, FSlice x =>
      mkEvent (UUID ev) (BatchID ev) (ProviderType ev) (VPCID ev) (DatacenterRegion ev) (DatacenterAccessKey ev) (DatacenterAccessToken ev) (PublicNetwork ev) (PublicNetworkAWSID ev) x (RoutedNetworkAWSIDs ev) (NatGatewayAWSID ev) (NatGatewayAllocationID ev) (NatGatewayAllocationIP ev) (InternetGatewayID ev) (ErrorMessage ev)
  | F_RoutedNetworkAWSIDs, FSlice x =>
      mkEvent (UUID ev) (BatchID ev) (ProviderType ev) (VPCID ev) (DatacenterRegion ev) (DatacenterAccessKey ev) (DatacenterAccessToken ev) (PublicNetwork ev) (PublicNetworkAWSID ev) (RoutedNetworks ev) x (NatGatewayAWSID ev) (NatGatewayAllocationID ev) (NatGatewayAllocationIP ev) (InternetGatewayID ev) (ErrorMessage ev)
  | F_NatGatewayAWSID, FString x =>
      mkEvent (UUID ev) (BatchID ev) (ProviderType ev) (VPCID ev) (DatacenterRegion ev) (DatacenterAccessKey ev) (DatacenterAccessToken ev) (PublicNetwork ev) (PublicNetworkAWSID ev) (RoutedNetworks ev) (RoutedNetworkAWSIDs ev) x (NatGatewayAllocationID ev) (NatGatewayAllocationIP ev) (InternetGatewayID ev) (ErrorMessage ev)
  | F_NatGatewayAllocationID, FString x =>
      mkEvent (UUID ev) (BatchID ev) (ProviderType ev) (VPCID ev) (DatacenterRegion ev) (DatacenterAccessKey ev) (DatacenterAccessToken ev) (PublicNetwork ev) (PublicNetworkAWSID ev) (RoutedNetworks ev) (RoutedNetworkAWSIDs ev) (NatGatewayAWSID ev) x (NatGatewayAllocationIP ev) (InternetGatewayID ev) (ErrorMessage ev)
  | F_NatGatewayAllocationIP, FString x =>
      mkEvent (UUID ev) (BatchID ev) (ProviderType ev) (VPCID ev) (DatacenterRegion ev) (DatacenterAccessKey ev) (DatacenterAccessToken ev) (PublicNetwork ev) (PublicNetworkAWSID ev) (RoutedNetworks ev) (RoutedNetworkAWSIDs ev) (NatGatewayAWSID ev) (NatGatewayAllocationID ev) x (InternetGatewayID ev) (ErrorMessage ev)
  | F_InternetGatewayID, FString x =>
      mkEvent (UUID ev) (BatchID ev) (ProviderType ev) (VPCID ev) (DatacenterRegion ev) (DatacenterAccessKey ev) (DatacenterAccessToken ev) (PublicNetwork ev) (PublicNetworkAWSID ev) (RoutedNetworks ev) (RoutedNetworkAWSIDs ev) (NatGatewayAWSID ev) (NatGatewayAllocationID ev) (NatGatewayAllocationIP ev) x (ErrorMessage ev)
  | F_ErrorMessage, FString x =>
      mkEvent (UUID ev) (BatchID ev) (ProviderType ev) (VPCID ev) (DatacenterRegion ev) (DatacenterAccessKey ev) (DatacenterAccessToken ev) (PublicNetwork ev) (PublicNetworkAWSID ev) (RoutedNetworks ev) (RoutedNetworkAWSIDs ev) (NatGatewayAWSID ev) (NatGatewayAllocationID ev) (NatGatewayAllocationIP ev) (InternetGatewayID ev) x
  | _, _ => ev
  end.

Definition findField (key : string) : option Field :=
  match find (fun f => String.eqb (fieldName f) key) eventFields with
  | Some f => Some f
  | None =>
    find (fun f => equalFold (foldFunc (fieldName f)) (fieldName f) key) eventFields
  end.

(* ------------------------------------------------------------------ *)
(** ** [json.Unmarshal(data, &ev)] for an [Event]. *)

(** The error [Unmarshal] returns, up to its message and offset. *)
Inductive UnmarshalError :=
| SyntaxError
| UnmarshalTypeError (value : string)
| ErrPhase.

(** [d.saveError]: the first error is kept. *)
Definition saveError (saved e : option UnmarshalError) : option UnmarshalError :=
  match saved with Some _ => saved | None => e end.

Definition jsonKind (v : JValue) : string :=
  match v with
  | JNull => "null" | JBool _ => "bool" | JNumber _ => "number"
  | JString _ => "string" | JArray _ => "array" | JObject _ => "object"
  end.

(** A value stored into a [string]: a string literal is decoded, [null]
    is ignored, anything else is a type error that leaves the string as it
    is.  [None] is the [errPhase] panic of a literal [unquoteBytes]
    rejects (the scanner has already refused such literals). *)
Definition storeString (cur : string) (v : JValue)
    : option (string * option UnmarshalError) :=
  match v with
  | JString raw => option_map (fun s => (s, None)) (unquote raw)
  | JNull => Some (cur, None)
  | _ => Some (cur, Some (UnmarshalTypeError (jsonKind v)))
  end.

(** The elements of an array stored into a slice: element [i] is decoded
    into the slice's element [i] when there is one and into a zero string
    otherwise (the slice grows into fresh zeroed storage; spare capacity
    left behind by an earlier shorter decode is treated as zeroed). *)
Fixpoint storeElems (old : list string) (elems : list JValue)
    : option (list string * option UnmarshalError) :=
  match elems with
  | [] => Some ([], None)
  | e :: es =>
    match storeString (hd EmptyString old) e with
    | None => None
    | Some (s, e1) =>
      match storeElems (tl old) es with
      | None => None
      | Some (l, e2) => Some (s :: l, saveError e1 e2)
      end
    end
  end.

(** A value stored into a [[]string]: [null] makes it nil, an array
    replaces it (an empty array gives an empty non-nil slice), anything
    else is a type error. *)
Definition storeSlice (cur : strslice) (v : JValue)
    : option (strslice * option UnmarshalError) :=
  match v with
  | JNull => Some (None, None)
  | JArray elems =>
    match storeElems (slice_elems cur) elems with
    | None => None
    | Some (l, e) => Some (Some l, e)
    end
  | _ => Some (cur, Some (UnmarshalTypeError (jsonKind v)))
  end.

Definition storeField (f : Field) (ev : Event) (v : JValue)
    : option (Event * option UnmarshalError) :=
  match getField f ev with
  | FString cur =>
    option_map (fun '(s, e) => (setField f (FString s) ev, e)) (storeString cur v)
  | FSlice cur =>
    option_map (fun '(l, e) => (setField f (FSlice l) ev, e)) (storeSlice cur v)
  end.

(** The members of an object, in order; an unknown key is skipped. *)
Fixpoint decodeMembers (ms : list (string * JValue)) (ev : Event)
    (saved : option UnmarshalError) : Event * option UnmarshalError :=
  match ms with
  | [] => (ev, saved)
  | (kraw, v) :: ms' =>
    match unquote kraw with
    | None => (ev, Some ErrPhase)
    | Some key =>
      match findField key with
      | None => decodeMembers ms' ev saved
      | Some f =>
        match storeField f ev v with
        | None => (ev, Some ErrPhase)
        | Some (ev', e) => decodeMembers ms' ev' (saveError saved e)
        end
      end
    end
  end.

(** [json.Unmarshal(data, &ev)] with [ev : *Event]: the Event after the
    call and the error returned.  A syntax error is found before anything
    is stored.  A top-level [null] sets the local pointer [ev] to nil and
    leaves the Event alone. *)
Definition Unmarshal (data : string) (ev : Event) : Event * option UnmarshalError :=
  match checkValid data with
  | None => (ev, Some SyntaxError)
  | Some (JObject ms) => decodeMembers ms ev None
  | Some JNull => (ev, None)
  | Some v => (ev, Some (UnmarshalTypeError (jsonKind v)))
  end.

(* ------------------------------------------------------------------ *)
(** ** [json.Marshal(ev)] for an [Event]. *)

Definition encodeValue (v : FieldValue) : string :=
  match v with
  | FString s => quoteString s
  | FSlice None => "null"
  | FSlice (Some l) => "[" ++ String.concat "," (map quoteString l) ++ "]"
  end.

Definition isEmptyValue (v : FieldValue) : bool :=
  match v with
  | FString s => String.eqb s EmptyString
  | FSlice l => Nat.eqb (slice_len l) 0
  end.

(** The members written, in order: each field's name and encoded value,
    an [omitempty] field being left out when empty. *)
Definition marshalFields (ev : Event) : list (string * string) :=
  map (fun f => (fieldName f, encodeValue (getField f ev)))
      (filter (fun f => negb (fieldOmitEmpty f && isEmptyValue (getField f ev)))
              eventFields).

(** [json.Marshal(ev)]; for this struct of strings and string slices it
    cannot fail. *)
Definition Marshal (ev : Event) : string :=
  "{" ++ String.concat "," (map (fun '(k, v) => quoteString k ++ ":" ++ v) (marshalFields ev))
      ++ "}".

(* ------------------------------------------------------------------ *)
(** ** Process, Error and Complete (event.go).  The message bus is the
    list of messages published so far, each a subject and a payload. *)

Definition subjectError : string := "nat.update.aws.error".
Definition subjectDone : string := "nat.update.aws.done".

Definition Msg : Type := string * string.

(** A terminal operation on the Event and the bus; a result [None] is a
    panic. *)
Definition EventOp (A : Type) : Type := Event * list Msg -> (Event * list Msg) * option A.

(** [func (ev *Event) Process(data []byte) error]. *)
Definition Process (data : string) : EventOp (option UnmarshalError) :=
  fun '(ev, bus) =>
    let '(ev', err) := Unmarshal data ev in
    match err with
    | Some e => ((ev', app bus [(subjectError, data)]), Some (Some e))
    | None => ((ev', bus), Some None)
    end.

Section Reporting.

(** The serializer [Error] and [Complete] call: [inl data] or [inr] the
    failure's [Error()] text.  [json.Marshal] itself is [jsonMarshal]
    below; keeping it a parameter lets the failure branches be read. *)
Variable marshal : Event -> string + string.

(** [func (ev *Event) Error(err error)], [err] given by its [Error()]
    text; [log.Panic] is a panic. *)
Definition Error (msg : string) : EventOp unit :=
  fun '(ev, bus) =>
    let ev' := setField F_ErrorMessage (FString msg) ev in
    match marshal ev' with
    | inr _ => ((ev', bus), None)
    | inl data => ((ev', app bus [(subjectError, data)]), Some tt)
    end.

(** [func (ev *Event) Complete()]: when marshalling fails it calls
    [ev.Error(err)] and then still publishes the nil [data] to the done
    subject. *)
Definition Complete : EventOp unit :=
  fun '(ev, bus) =>
    match marshal ev with
    | inl data => ((ev, app bus [(subjectDone, data)]), Some tt)
    | inr e =>
      match Error e (ev, bus) with
      | ((ev', bus'), Some _) => ((ev', app bus' [(subjectDone, EmptyString)]), Some tt)
      | (st, None) => (st, None)
      end
    end.

End Reporting.

Definition jsonMarshal (ev : Event) : string + string := inl (Marshal ev).

(** A JSON text written with single quotes in place of double quotes. *)
Fixpoint sq (s : string) : string :=
  match s with
  | EmptyString => EmptyString
  | String c rest => String (if Ascii.eqb c "'"%char then quote else c) (sq rest)
  end.


(* ------------------------------------------------------------------ *)
(** ** Auxiliary notions of the proofs. *)

(** Every character of the string is a byte of at least 0x80. *)
Fixpoint all_high (t : string) : Prop :=
  match t with
  | EmptyString => True
  | String c t' => (0x80 <= byte c)%Z /\ all_high t'
  end.

(** [scan_string] passes over the text [p] without stopping. *)
Definition scan_transparent (p : string) : Prop :=
  forall T, scan_string (p ++ T) = option_map (fun '(b, r) => (p ++ b, r)) (scan_string T).

(** The JSON value a field value is written as. *)
Definition jsonOf (v : FieldValue) : JValue :=
  match v with
  | FString s => JString (encString s)
  | FSlice None => JNull
  | FSlice (Some l) => JArray (map (fun x => JString (encString x)) l)
  end.

(** The text of one member of the serialized Event. *)
Definition memberText (ev : Event) (f : Field) : string :=
  quoteString (fieldName f) ++ ":" ++ encodeValue (getField f ev).

(** The parsed member the text [memberText ev f] stands for. *)
Definition memberJSON (ev : Event) (f : Field) : string * JValue :=
  (encString (fieldName f), jsonOf (getField f ev)).

(** The fields [Marshal] writes, in order. *)
Definition marshalList (ev : Event) : list Field :=
  filter (fun f => negb (fieldOmitEmpty f && isEmptyValue (getField f ev))) eventFields.

(** A field value whose strings are all valid UTF-8. *)
Definition fieldValidUTF8 (v : FieldValue) : bool :=
  match v with
  | FString s => ValidString s
  | FSlice None => true
  | FSlice (Some l) => forallb ValidString l
  end.

(** An Event whose strings are all valid UTF-8. *)
Definition eventValidUTF8 (ev : Event) : bool :=
  forallb (fun f => fieldValidUTF8 (getField f ev)) eventFields.

(** [testEvent] with a UUID that is the single byte 0xFF. *)
Definition invalidUTF8Event : Event :=
  setField F_UUID (FString (String (ascii_of_nat 255) EmptyString)) testEvent.

(** A member whose key does not select the [error] field. *)
Definition notErrorKey (m : string * JValue) : Prop :=
  forall key, unquote (fst m) = Some key -> findField key <> Some F_ErrorMessage.

(* ------------------------------------------------------------------ *)
(** ** The message handler (main.go). *)

Section Handler.

(** [ec2.New(session.New(), &aws.Config{Region, Credentials})] with
    static credentials [(key, token, "")], as a provider over state [S]
    with errors [E]; [errText] is an error's [Error()] text; [marshal] is
    the serializer [Error] and [Complete] call. *)
Variables (S E : Type) (newEC2 : string -> string -> string -> EC2 S E)
          (errText : E -> string) (marshal : Event -> string + string).

(** [func eventHandler(m *nats.Msg)] for [m.Data = data]: the provider
    state and call trace, and the message bus; a result [None] is a
    panic. *)
Definition eventHandler (data : string) (st : (S * trace E) * list Msg)
    : ((S * trace E) * list Msg) * option unit :=
  let '(p, bus) := st in
  match Process data (zeroEvent, bus) with
  | ((_, bus1), None) => ((p, bus1), None)
  | ((_, bus1), Some (Some _)) => ((p, bus1), Some tt)
  | ((n, bus1), Some None) =>
    match Validate n with
    | Some m =>
      let '((_, bus2), r) := Error marshal m (n, bus1) in ((p, bus2), r)
    | None =>
      let svc := newEC2 (DatacenterRegion n) (DatacenterAccessKey n) (DatacenterAccessToken n) in
      match updateNat S E svc n p with
      | (p', None) => ((p', bus1), None)
      | (p', Some (Some e)) =>
        let '((_, bus2), r) := Error marshal (errText e) (n, bus1) in ((p', bus2), r)
      | (p', Some None) =>
        let '((_, bus2), r) := Complete marshal (n, bus1) in ((p', bus2), r)
      end
    end
  end.

End Handler.

(** The in-memory provider for every region and credentials. *)
Definition memClient (region key token : string) : EC2 MemEC2 string := memEC2.

(** A member whose key does not select field [f]. *)
Definition notKeyOf (f : Field) (m : string * JValue) : Prop :=
  forall key, unquote (fst m) = Some key -> findField key <> Some f.

(** The provider state left by the run of [testEvent] on an empty
    in-memory provider. *)
Definition reconciledState : MemEC2 :=
  mkMemEC2 [mkTableState "rtb-0" "vpc-0000000" ["subnet-00000001"] [natRoute "nat-0001"]] 1.

(* ================================================================== *)
(** * Properties *)

Open Scope list_scope.

(** ** Validate *)

(** C4: [Validate] returns [nil] exactly when the VPC ID, the region, the
    access key, the access token and the public network ID are non-empty
    and the routed-network list is non-empty; otherwise it returns the
    sentinel error of the first violated check in the order VPC ID, region,
    credentials (key or token), public network ID, routed networks. *)
Theorem Validate_first_violation (ev : Event) :
  (Validate ev = None <->
     VPCID ev <> "" /\ DatacenterRegion ev <> "" /\ DatacenterAccessKey ev <> "" /\
     DatacenterAccessToken ev <> "" /\ PublicNetworkAWSID ev <> "" /\
     slice_elems (RoutedNetworkAWSIDs ev) <> []) /\
  (VPCID ev = "" -> Validate ev = Some ErrDatacenterIDInvalid) /\
  (VPCID ev <> "" -> DatacenterRegion ev = "" ->
     Validate ev = Some ErrDatacenterRegionInvalid) /\
  (VPCID ev <> "" -> DatacenterRegion ev <> "" ->
     (DatacenterAccessKey ev = "" \/ DatacenterAccessToken ev = "") ->
     Validate ev = Some ErrDatacenterCredentialsInvalid) /\
  (VPCID ev <> "" -> DatacenterRegion ev <> "" -> DatacenterAccessKey ev <> "" ->
     DatacenterAccessToken ev <> "" -> PublicNetworkAWSID ev = "" ->
     Validate ev = Some ErrNetworkIDInvalid) /\
  (VPCID ev <> "" -> DatacenterRegion ev <> "" -> DatacenterAccessKey ev <> "" ->
     DatacenterAccessToken ev <> "" -> PublicNetworkAWSID ev <> "" ->
     slice_elems (RoutedNetworkAWSIDs ev) = [] ->
     Validate ev = Some ErrRoutedNetworksEmpty).
Proof.
  destruct ev as [u b p vpc reg key tok pn pnid rn rids gw aid aip igw em]; simpl.
  unfold Validate; simpl.
  assert (Hlen : Nat.ltb (slice_len rids) 1 = true <-> slice_elems rids = []).
  { destruct rids as [[|x l]|]; simpl; split; intro H; try reflexivity;
      try discriminate; simpl in H; discriminate. }
  destruct (String.eqb_spec vpc ""); destruct (String.eqb_spec reg "");
  destruct (String.eqb_spec key ""); destruct (String.eqb_spec tok "");
  destruct (String.eqb_spec pnid ""); simpl;
  destruct (Nat.ltb (slice_len rids) 1) eqn:Hl;
  repeat split; intros; subst; try congruence; try tauto; try discriminate;
  try (apply Hlen; assumption);
  try (intros Hn; apply Hlen in Hn; congruence);
  try (intuition congruence).
Qed.

(** ** The reconciler *)

Section ReconcilerFacts.
Variables (S E : Type) (svc : EC2 S E).

Definition no_fail (tr : trace E) : Prop := Forall (fun ent => snd ent = None) tr.

Definition refs_only (P : string -> Prop) (tr : trace E) : Prop :=
  Forall (fun ent => forall y, call_subnet (fst ent) = Some y -> P y) tr.

Lemma call_eq {A} (c : Call) (f : S -> S * (E + A)) s tr :
  call S E c f (s, tr) = let '(s', r) := f s in ((s', (tr ++ [(c, err_of E r)])%list), Some r).
Proof. reflexivity. Qed.

(** C10: [routingTableBySubnetID] issues one describe call; it returns the
    provider's error unchanged, the absent table with a nil error when the
    response lists no table, and the first listed table otherwise. *)
Theorem routingTableBySubnetID_first (subnet : string) (s : S) (tr : trace E) :
  routingTableBySubnetID S E svc subnet (s, tr) =
  let '(s', r) := DescribeRouteTables svc subnet s in
  ((s', (tr ++ [(CDescribeRouteTables subnet, err_of E r)])%list),
   Some (match r with
         | inl e => inl e
         | inr [] => inr None
         | inr (t :: _) => inr (Some t)
         end)).
Proof.
  unfold routingTableBySubnetID, bind. rewrite call_eq.
  destruct (DescribeRouteTables svc subnet s) as [s' [e|[|t ts]]]; reflexivity.
Qed.

Lemma refs_only_app P tr1 tr2 :
  refs_only P tr1 -> refs_only P tr2 -> refs_only P (tr1 ++ tr2).
Proof. unfold refs_only. intros. apply Forall_app; auto. Qed.

Lemma refs_only_weaken (P Q : string -> Prop) tr :
  (forall y, P y -> Q y) -> refs_only P tr -> refs_only Q tr.
Proof.
  unfold refs_only. intros HPQ H. eapply Forall_impl; [|exact H].
  intros a Ha y Hy. auto.
Qed.

Lemma no_fail_app tr1 tr2 : no_fail tr1 -> no_fail tr2 -> no_fail (tr1 ++ tr2).
Proof. unfold no_fail. intros. apply Forall_app; auto. Qed.

Lemma no_fail_not_in tr c e : no_fail tr -> ~ In (c, Some e) tr.
Proof.
  unfold no_fail. intros H Hin. rewrite Forall_forall in H.
  apply H in Hin. discriminate.
Qed.

(** One [createRouteTable] call: the calls it issues name only its subnet,
    start with the describe call, and either all succeed, or the last one
    fails with the error it returns. *)
Lemma createRouteTable_shape (vpc x : string) (s : S) (tr : trace E) :
  exists s' seg r,
    createRouteTable S E svc vpc x (s, tr) = ((s', (tr ++ seg)%list), Some r) /\
    refs_only (eq x) seg /\
    (exists o rest, seg = (CDescribeRouteTables x, o) :: rest) /\
    match r with
    | inl e => exists seg0 c, seg = (seg0 ++ [(c, Some e)])%list /\ no_fail seg0
    | inr _ => no_fail seg
    end.
Proof.
  unfold createRouteTable, bind.
  rewrite routingTableBySubnetID_first.
  destruct (DescribeRouteTables svc x s) as [s1 [e|[|t ts]]]; simpl.
  - exists s1, [(CDescribeRouteTables x, Some e)], (inl e). repeat split.
    + repeat constructor; simpl; intros y Hy; congruence.
    + eauto.
    + exists [], (CDescribeRouteTables x). split; [reflexivity|constructor].
  - unfold call. destruct (CreateRouteTable svc vpc s1) as [s2 [e|newrt]]; simpl.
    + exists s2, [(CDescribeRouteTables x, None); (CCreateRouteTable vpc, Some e)], (inl e).
      rewrite <- app_assoc. repeat split.
      * repeat constructor; simpl; intros y Hy; congruence.
      * eauto.
      * exists [(CDescribeRouteTables x, None)], (CCreateRouteTable vpc).
        split; [reflexivity|]. repeat constructor.
    + destruct (AssociateRouteTable svc (RouteTableId newrt) x s2) as [s3 [e|u]]; simpl.
      * exists s3, [(CDescribeRouteTables x, None); (CCreateRouteTable vpc, None);
                    (CAssociateRouteTable (RouteTableId newrt) x, Some e)], (inl e).
        rewrite <- !app_assoc. repeat split.
        -- repeat constructor; simpl; intros y Hy; congruence.
        -- eauto.
        -- exists [(CDescribeRouteTables x, None); (CCreateRouteTable vpc, None)],
                  (CAssociateRouteTable (RouteTableId newrt) x).
           split; [reflexivity|]. repeat constructor.
      * exists s3, [(CDescribeRouteTables x, None); (CCreateRouteTable vpc, None);
                    (CAssociateRouteTable (RouteTableId newrt) x, None)], (inr newrt).
        rewrite <- !app_assoc. repeat split.
        -- repeat constructor; simpl; intros y Hy; congruence.
        -- eauto.
        -- repeat constructor.
  - exists s1, [(CDescribeRouteTables x, None)], (inr t). repeat split.
    + repeat constructor; simpl; intros y Hy; congruence.
    + eauto.
    + repeat constructor.
Qed.

End ReconcilerFacts.

Arguments no_fail {E} tr.
Arguments refs_only {E} P tr.

Section ReconcilerLoop.
Variables (S E : Type) (svc : EC2 S E).


(** The shape of a run of the loop from trace [tr0]: the calls it adds,
    the fail-fast decomposition and the success case. *)
Definition loop_shape (ids : list string) (tr0 : trace E)
    (res : (S * trace E) * option (option E)) : Prop :=
  let '((_, tr1), r) := res in
  exists tr, tr1 = tr0 ++ tr /\
   (forall c e, In (c, Some e) tr -> r = Some (Some e)) /\
   (forall e, r = Some (Some e) ->
      exists pre x post trA trB c,
        ids = pre ++ x :: post /\ tr = trA ++ trB ++ [(c, Some e)] /\
        no_fail trA /\ refs_only (fun y => In y pre) trA /\
        no_fail trB /\ refs_only (eq x) (trB ++ [(c, Some e)])) /\
   (r = Some None ->
      no_fail tr /\ forall x, In x ids -> In (CDescribeRouteTables x, None) tr).

Lemma updateNatLoop_shape (vpc gw : string) (ids : list string) :
  forall s tr, loop_shape ids tr (updateNatLoop S E svc vpc gw ids (s, tr)).
Proof.
  induction ids as [|x rest IH]; intros s tr.
  - simpl. exists []. rewrite app_nil_r. repeat split;
      intros; simpl in *; try tauto; try discriminate; constructor.
  - simpl updateNatLoop. unfold bind at 1.
    destruct (createRouteTable_shape S E svc vpc x s tr)
      as (s' & seg & r & Heq & Hrefs & (o & segr & Hhead) & Hr).
    rewrite Heq.
    destruct r as [e|rt].
    + (* createRouteTable failed *)
      destruct Hr as (seg0 & c & Hseg & Hnf). cbn.
      exists seg. repeat split.
      * intros c' e' Hin. rewrite Hseg in Hin. apply in_app_or in Hin. destruct Hin as [Hin|Hin].
        -- exfalso. eapply no_fail_not_in; eauto.
        -- destruct Hin as [Hin|[]]. congruence.
      * intros e' He'. injection He' as <-.
        exists [], x, rest, [], seg0, c. rewrite Hseg in *. repeat split; try constructor; auto.
      * intros; discriminate.
      * intros; discriminate.
    + (* a route table was found or created *)
      cbn [from_option]. unfold bind at 1.
      destruct (routeTableIsConfigured rt gw) as [configured|] eqn:Hc.
      2:{ cbn. exists seg. repeat split.
          - intros c e Hin. exfalso. eapply no_fail_not_in; eauto.
          - intros; discriminate.
          - intros; discriminate.
          - intros; discriminate. }
      assert (Hstep : forall s2 seg2,
                 seg2 = seg \/ (exists o', o' = None /\ seg2 = seg ++ [(CCreateRoute (RouteTableId rt) DefaultCidr gw, o')]) ->
                 loop_shape (x :: rest) tr
                   (updateNatLoop S E svc vpc gw rest (@pair S (trace E) s2 (tr ++ seg2)))).
      { intros s2 seg2 Hseg2.
        assert (Hnf2 : no_fail seg2 /\ refs_only (eq x) seg2
                       /\ exists rest2, seg2 = (CDescribeRouteTables x, o) :: rest2).
        { destruct Hseg2 as [->|(o' & -> & ->)].
          - subst seg. eauto.
          - repeat split.
            + apply no_fail_app; auto. repeat constructor.
            + apply refs_only_app; auto. repeat constructor. simpl. intros y Hy; discriminate.
            + subst seg. eexists. reflexivity. }
        destruct Hnf2 as (Hnf2 & Hrefs2 & rest2 & Hhead2).
        specialize (IH s2 (tr ++ seg2)).
        unfold loop_shape in *. revert IH.
        destruct (updateNatLoop S E svc vpc gw rest (@pair S (trace E) s2 (tr ++ seg2)))
          as [[s3 tr3] r3].
        cbn. intros IH.
        destruct IH as (trr & Htr3 & Hfail & Hdec & Hok).
        exists (seg2 ++ trr). rewrite app_assoc. split; [exact Htr3|]. repeat split.
        - intros c e Hin. apply in_app_or in Hin. destruct Hin as [Hin|Hin].
          + exfalso. eapply no_fail_not_in; eauto.
          + eauto.
        - intros e He. destruct (Hdec e He) as (pre & x' & post & trA & trB & c & Hids & Htr & HA1 & HA2 & HB1 & HB2).
          exists (x :: pre), x', post, (seg2 ++ trA), trB, c.
          repeat split.
          + rewrite Hids. reflexivity.
          + rewrite Htr. rewrite !app_assoc. reflexivity.
          + apply no_fail_app; auto.
          + apply refs_only_app.
            * eapply refs_only_weaken; [|exact Hrefs2]. intros y <-. left. reflexivity.
            * eapply refs_only_weaken; [|exact HA2]. intros y Hy. right. exact Hy.
          + exact HB1.
          + exact HB2.
        - match goal with H : r3 = Some None |- _ => destruct (Hok H) as [Hnf3 Hin3] end.
          apply no_fail_app; auto.
        - match goal with H : r3 = Some None |- _ => destruct (Hok H) as [Hnf3 Hin3] end.
          intros y Hy.
          destruct Hy as [<-|Hy].
          + apply in_or_app. left. rewrite Hhead2.
            assert (o = None).
            { rewrite Hhead2 in Hnf2. inversion Hnf2. auto. }
            subst o. left. reflexivity.
          + apply in_or_app. right. auto. }
      destruct configured.
      * cbn. apply Hstep. left. reflexivity.
      * unfold createNatGatewayRoutes, bind, call. cbn.
        destruct (CreateRoute svc (RouteTableId rt) DefaultCidr gw s') as [s4 [e|u]]; cbn.
        -- exists (seg ++ [(CCreateRoute (RouteTableId rt) DefaultCidr gw, Some e)]).
           rewrite app_assoc. split; [reflexivity|]. repeat split.
           ++ intros c e' Hin. apply in_app_or in Hin. destruct Hin as [Hin|Hin].
              ** exfalso. eapply no_fail_not_in; eauto.
              ** destruct Hin as [Hin|[]]. congruence.
           ++ intros e' He'. injection He' as <-.
              exists [], x, rest, [], seg, (CCreateRoute (RouteTableId rt) DefaultCidr gw).
              repeat split; try constructor; auto.
              apply refs_only_app; auto. repeat constructor. simpl. intros y Hy; discriminate.
           ++ intros; discriminate.
           ++ intros; discriminate.
        -- rewrite <- app_assoc. apply Hstep. right. eexists. split; reflexivity.
Qed.

(** C3: whatever the adapter does, a run of [updateNat] that meets a
    failing adapter call returns exactly that call's error; the failing
    call is the last call issued; before it come the successful calls of
    the earlier subnets (naming only those) and the successful calls for
    the failing subnet (naming only it); no call names a later subnet.
    [nil] is returned only when every call succeeded and every subnet of
    the list was looked up. *)
Theorem updateNat_fail_fast (ev : Event) (s0 : S) (tr0 : trace E) :
  let ids := slice_elems (RoutedNetworkAWSIDs ev) in
  let '((s1, tr1), r) := updateNat S E svc ev (s0, tr0) in
  exists tr, tr1 = tr0 ++ tr /\
   (forall c e, In (c, Some e) tr -> r = Some (Some e)) /\
   (forall e, r = Some (Some e) ->
      exists pre x post trA trB c,
        ids = pre ++ x :: post /\ tr = trA ++ trB ++ [(c, Some e)] /\
        no_fail trA /\ refs_only (fun y => In y pre) trA /\
        no_fail trB /\ refs_only (eq x) (trB ++ [(c, Some e)])) /\
   (r = Some None ->
      no_fail tr /\ forall x, In x ids -> In (CDescribeRouteTables x, None) tr).
Proof.
  exact (updateNatLoop_shape (VPCID ev) (NatGatewayAWSID ev)
           (slice_elems (RoutedNetworkAWSIDs ev)) s0 tr0).
Qed.

End ReconcilerLoop.

(** ** routeTableIsConfigured *)

Lemma routesConfigured_cons (r : Route) (rest : list Route) (gw : string) :
  routesConfigured (r :: rest) gw =
  if route_malformed r then None
  else if route_matches gw r then Some true
  else routesConfigured rest gw.
Proof.
  destruct r as [[d|] g [n|]]; unfold route_malformed, route_matches; simpl; auto;
    destruct (String.eqb d DefaultCidr); simpl; auto.
Qed.

(** C9 (as amended): the scan dereferences a nil pointer exactly when,
    in the table's route order, a route with no destination CIDR or a
    [0.0.0.0/0] route with no NAT gateway ID comes before any route
    [0.0.0.0/0 -> gwID]; it returns true exactly when such a matching route
    comes first. *)
Theorem routeTableIsConfigured_nil_deref (rt : RouteTable) (gw : string) :
  (routeTableIsConfigured rt gw = None <->
     exists pre r post, Routes rt = pre ++ r :: post /\
       forallb (route_passed gw) pre = true /\ route_malformed r = true) /\
  (routeTableIsConfigured rt gw = Some true <->
     exists pre r post, Routes rt = pre ++ r :: post /\
       forallb (route_passed gw) pre = true /\ route_matches gw r = true).
Proof.
  unfold routeTableIsConfigured. destruct rt as [id routes]; simpl.
  induction routes as [|x rest IH].
  - simpl. split; split; try discriminate;
      intros (pre & r & post & H & _); destruct pre; discriminate.
  - rewrite routesConfigured_cons. destruct IH as [[IHn1 IHn2] [IHt1 IHt2]].
    assert (Hex : route_malformed x = true -> route_matches gw x = false).
    { destruct x as [[d|] g [n|]]; unfold route_malformed, route_matches; simpl;
        try reflexivity; try discriminate;
        destruct (String.eqb d DefaultCidr); simpl; congruence. }
    assert (Hhd : forall pre r post, x :: rest = pre ++ r :: post ->
                  forallb (route_passed gw) pre = true ->
                  (pre = [] /\ r = x /\ post = rest) \/
                  (exists pre', pre = x :: pre' /\ route_passed gw x = true /\
                   rest = pre' ++ r :: post /\ forallb (route_passed gw) pre' = true)).
    { intros pre r post H Hp. destruct pre as [|y pre]; simpl in H.
      - injection H as -> ->. left. auto.
      - injection H as -> ->. simpl in Hp. apply andb_true_iff in Hp.
        right. exists pre. intuition. }
    destruct (route_malformed x) eqn:Hm; [|destruct (route_matches gw x) eqn:Ht].
    + split; split; try discriminate; try reflexivity.
      * intros _. exists [], x, rest. auto.
      * intros (pre & r & post & H & Hp & Hr).
        destruct (Hhd pre r post H Hp) as [(-> & -> & ->)|(pre' & -> & Hpx & _)].
        -- rewrite (Hex eq_refl) in Hr. discriminate.
        -- unfold route_passed in Hpx. rewrite Hm in Hpx. discriminate.
    + split; split; try discriminate; try reflexivity.
      * intros (pre & r & post & H & Hp & Hr).
        destruct (Hhd pre r post H Hp) as [(-> & -> & ->)|(pre' & -> & Hpx & _)].
        -- congruence.
        -- unfold route_passed in Hpx. rewrite Hm, Ht in Hpx. discriminate.
      * intros _. exists [], x, rest. auto.
    + split; split.
      * intros H. destruct (IHn1 H) as (pre & r & post & -> & Hp & Hr).
        exists (x :: pre), r, post. simpl. unfold route_passed at 1. rewrite Hm, Ht. auto.
      * intros (pre & r & post & H & Hp & Hr).
        destruct (Hhd pre r post H Hp) as [(-> & -> & ->)|(pre' & -> & Hpx & Hrest & Hp')].
        -- congruence.
        -- apply IHn2. exists pre', r, post. auto.
      * intros H. destruct (IHt1 H) as (pre & r & post & -> & Hp & Hr).
        exists (x :: pre), r, post. simpl. unfold route_passed at 1. rewrite Hm, Ht. auto.
      * intros (pre & r & post & H & Hp & Hr).
        destruct (Hhd pre r post H Hp) as [(-> & -> & ->)|(pre' & -> & Hpx & Hrest & Hp')].
        -- congruence.
        -- apply IHt2. exists pre', r, post. auto.
Qed.

(** C9 counterexample: a table that has a route with no destination CIDR
    but lists the target NAT route before it is reported configured; the
    scan does not reach the nil pointer. *)
Lemma routeTableIsConfigured_nil_route_after_match :
  ~ (forall (rt : RouteTable) (gw : string),
       (exists r, In r (Routes rt) /\ DestinationCidrBlock r = None) ->
       routeTableIsConfigured rt gw = None).
Proof.
  intros H.
  specialize (H (mkRouteTable "rtb-1" [natRoute "nat-1"; ipv6LocalRoute]) "nat-1").
  assert (Hin : exists r, In r (Routes (mkRouteTable "rtb-1" [natRoute "nat-1"; ipv6LocalRoute]))
                          /\ DestinationCidrBlock r = None).
  { exists ipv6LocalRoute. simpl. auto. }
  specialize (H Hin). vm_compute in H. discriminate.
Qed.

(** C2 (failing input): [subnet-1]'s table already has the route
    [0.0.0.0/0 -> nat-1], and the run issues no mutating call for it, but
    the scan dereferences the nil [DestinationCidrBlock] of the IPv6 local
    route listed before it: the run panics after the lookup and never
    reaches [subnet-2]. *)
Theorem updateNat_dual_stack_panics :
  In (natRoute "nat-1") (Routes (mkRouteTable "rtb-1" [ipv4LocalRoute; ipv6LocalRoute; natRoute "nat-1"])) /\
  updateNat _ _ memEC2 dualStackEvent (dualStackState, []) =
  ((dualStackState, [(CDescribeRouteTables "subnet-1", None)]), None).
Proof. split; [simpl; auto | vm_compute; reflexivity]. Qed.

(** ** Convergence against the in-memory provider *)

Section LoopEquations.
Variables (S E : Type) (svc : EC2 S E).

Lemma updateNatLoop_cons (vpc gw x : string) (rest : list string) (st : S * trace E) :
  updateNatLoop S E svc vpc gw (x :: rest) st =
  match updateNatStep S E svc vpc gw x st with
  | (st', Some None) => updateNatLoop S E svc vpc gw rest st'
  | res => res
  end.
Proof.
  simpl. unfold updateNatStep, bind.
  destruct (createRouteTable S E svc vpc x st) as [st1 [[e|rt]|]]; try reflexivity.
  unfold from_option.
  destruct (routeTableIsConfigured rt gw) as [[|]|]; try reflexivity.
  unfold createNatGatewayRoutes, bind, call, ret. destruct st1 as [s1 tr1].
  destruct (CreateRoute svc (RouteTableId rt) DefaultCidr gw s1) as [s2 [e|u]]; reflexivity.
Qed.

Lemma updateNatLoop_app (vpc gw : string) (pre l : list string) (st : S * trace E) :
  updateNatLoop S E svc vpc gw (pre ++ l) st =
  match updateNatLoop S E svc vpc gw pre st with
  | (st', Some None) => updateNatLoop S E svc vpc gw l st'
  | res => res
  end.
Proof.
  revert st. induction pre as [|x pre IH]; intros st.
  - reflexivity.
  - simpl app. rewrite !updateNatLoop_cons.
    destruct (updateNatStep S E svc vpc gw x st) as [st1 [[e|]|]]; try reflexivity.
    apply IH.
Qed.

End LoopEquations.

Lemma filter_map_comm {A} (f : A -> bool) (g : A -> A) (l : list A) :
  (forall t, f (g t) = f t) -> filter f (map g l) = map g (filter f l).
Proof.
  intros Hfg. induction l as [|t l IH]; simpl; auto.
  rewrite Hfg. destruct (f t); simpl; rewrite IH; reflexivity.
Qed.

Lemma routesConfigured_app_true (rs l : list Route) (gw : string) :
  routesConfigured rs gw = Some true -> routesConfigured (rs ++ l) gw = Some true.
Proof.
  induction rs as [|r rs IH]; simpl app; [discriminate|].
  rewrite !routesConfigured_cons.
  destruct (route_malformed r); [discriminate|].
  destruct (route_matches gw r); auto.
Qed.

Lemma routesConfigured_app_false (rs l : list Route) (gw : string) :
  routesConfigured rs gw = Some false -> routesConfigured (rs ++ l) gw = routesConfigured l gw.
Proof.
  induction rs as [|r rs IH]; simpl app; [auto|].
  rewrite !routesConfigured_cons.
  destruct (route_malformed r); [discriminate|].
  destruct (route_matches gw r); [discriminate|auto].
Qed.

Lemma natRoute_configured (gw : string) : routesConfigured [natRoute gw] gw = Some true.
Proof. simpl. rewrite String.eqb_refl. reflexivity. Qed.

Lemma associated_add_assoc (x id y : string) (t : TableState) :
  x <> y -> associated x (add_assoc id y t) = associated x t.
Proof.
  intros Hxy. unfold add_assoc, associated. destruct (has_id id t); simpl; auto.
  rewrite existsb_app. simpl. destruct (String.eqb_spec x y); [congruence|].
  rewrite orb_false_r. reflexivity.
Qed.

Lemma associated_add_route (x id : string) (r : Route) (t : TableState) :
  associated x (add_route id r t) = associated x t.
Proof. unfold add_route. destruct (has_id id t); reflexivity. Qed.

Lemma mem_create_rt_cases (vpc : string) (m m' : MemEC2) r :
  mem_create_rt vpc m = (m', r) ->
  match r with
  | inl _ => m' = m
  | inr newrt =>
      mem_tables m' = mem_tables m ++ [mkTableState (RouteTableId newrt) vpc [] []] /\
      Routes newrt = [] /\ existsb (has_id (RouteTableId newrt)) (mem_tables m) = false
  end.
Proof.
  unfold mem_create_rt.
  destruct (existsb (has_id ("rtb-" ++ string_of_nat (mem_next m))) (mem_tables m)) eqn:H;
    intros Heq; injection Heq as <- <-; simpl; auto.
Qed.

Lemma mem_associate_cases (id y : string) (m m' : MemEC2) r :
  mem_associate id y m = (m', r) ->
  match r with
  | inl _ => m' = m
  | inr _ => mem_tables m' = map (add_assoc id y) (mem_tables m) /\
             existsb (associated y) (mem_tables m) = false
  end.
Proof.
  unfold mem_associate.
  destruct (negb (existsb (has_id id) (mem_tables m))); [intros H; injection H as <- <-; auto|].
  destruct (existsb (associated y) (mem_tables m)) eqn:Ha;
    intros H; injection H as <- <-; simpl; auto.
Qed.

Lemma mem_create_route_cases (id c g : string) (m m' : MemEC2) r :
  mem_create_route id c g m = (m', r) ->
  match r with
  | inl _ => m' = m
  | inr _ => mem_tables m' = map (add_route id (mkRoute (Some c) None (Some g))) (mem_tables m)
  end.
Proof.
  unfold mem_create_route.
  destruct (negb (existsb (has_id id) (mem_tables m))); [intros H; injection H as <- <-; auto|].
  destruct (existsb _ (mem_tables m));
    intros H; injection H as <- <-; simpl; auto.
Qed.

Lemma mem_step_configured (ys : list string) (gw : string) (m m' : MemEC2) (x : string) :
  mem_step ys m m' -> configured_in gw m x -> configured_in gw m' x.
Proof.
  unfold configured_in, first_table.
  intros Hs (t & Ht & Hc). destruct Hs as [vpc m m' r H|id y m m' Hy H|id c g m m' H].
  - apply mem_create_rt_cases in H. destruct H as (-> & _ & _).
    rewrite filter_app. simpl. exists t.
    destruct (filter (associated x) (mem_tables m)); simpl in *; [discriminate|auto].
  - apply mem_associate_cases in H. destruct H as (-> & Hna).
    assert (Hxy : x <> y).
    { intros ->. destruct (filter (associated y) (mem_tables m)) as [|t' l] eqn:Hf;
        [discriminate|].
      assert (Hin : In t' (filter (associated y) (mem_tables m))) by (rewrite Hf; left; auto).
      apply filter_In in Hin. destruct Hin as [Hin Ha].
      assert (existsb (associated y) (mem_tables m) = true)
        by (apply existsb_exists; eauto).
      congruence. }
    rewrite filter_map_comm by (intros; apply associated_add_assoc; auto).
    destruct (filter (associated x) (mem_tables m)); simpl in *; [discriminate|].
    injection Ht as ->. eexists; split; [reflexivity|].
    unfold add_assoc. destruct (has_id id t); auto.
  - apply mem_create_route_cases in H. rewrite H.
    rewrite filter_map_comm by (intros; apply associated_add_route).
    destruct (filter (associated x) (mem_tables m)); simpl in *; [discriminate|].
    injection Ht as ->. eexists; split; [reflexivity|].
    unfold add_route. destruct (has_id id t); simpl; auto.
    apply routesConfigured_app_true; auto.
Qed.

Lemma mem_steps_configured (ys : list string) (gw : string) (m m' : MemEC2) (x : string) :
  mem_steps ys m m' -> configured_in gw m x -> configured_in gw m' x.
Proof.
  induction 1; auto. intros H1. apply IHmem_steps. eapply mem_step_configured; eauto.
Qed.

Lemma mem_step_no_table (ys : list string) (m m' : MemEC2) (s : string) :
  mem_step ys m m' -> ~ In s ys ->
  filter (associated s) (mem_tables m) = [] -> filter (associated s) (mem_tables m') = [].
Proof.
  intros Hs Hn Hf. destruct Hs as [vpc m m' r H|id y m m' Hy H|id c g m m' H].
  - apply mem_create_rt_cases in H. destruct H as (-> & _ & _).
    rewrite filter_app, Hf. reflexivity.
  - apply mem_associate_cases in H. destruct H as (-> & _).
    rewrite filter_map_comm, Hf; [reflexivity|].
    intros t. apply associated_add_assoc. intros ->. contradiction.
  - apply mem_create_route_cases in H. rewrite H.
    rewrite filter_map_comm, Hf; [reflexivity|]. intros t. apply associated_add_route.
Qed.

Lemma mem_steps_no_table (ys : list string) (m m' : MemEC2) (s : string) :
  mem_steps ys m m' -> ~ In s ys ->
  filter (associated s) (mem_tables m) = [] -> filter (associated s) (mem_tables m') = [].
Proof.
  induction 1; auto. intros Hn Hf. apply IHmem_steps; auto.
  eapply mem_step_no_table; eauto.
Qed.

Lemma mem_steps_trans (ys : list string) (m1 m2 m3 : MemEC2) :
  mem_steps ys m1 m2 -> mem_steps ys m2 m3 -> mem_steps ys m1 m3.
Proof. induction 1; auto. intros. econstructor; eauto. Qed.

Lemma mem_steps_mono (ys zs : list string) (m m' : MemEC2) :
  (forall y, In y ys -> In y zs) -> mem_steps ys m m' -> mem_steps zs m m'.
Proof.
  intros Hsub. induction 1; [constructor|]. econstructor; [|eauto].
  destruct H as [vpc m1 m2 r H|id y m1 m2 Hy H|id c g m1 m2 H].
  - eapply ms_create; eauto.
  - eapply ms_assoc; eauto.
  - eapply ms_route; eauto.
Qed.

(** One iteration against the in-memory provider: it only mutates the
    provider by steps associating its own subnet, and when it succeeds
    the subnet ends with an associated, configured table. *)
Lemma mem_updateNatStep (vpc gw x : string) (m : MemEC2) (tr : trace string) :
  let '((m', _), r) := updateNatStep _ _ memEC2 vpc gw x (m, tr) in
  mem_steps [x] m m' /\ (r = Some None -> configured_in gw m' x).
Proof.
  unfold updateNatStep, createRouteTable, routingTableBySubnetID, bind, call, ret,
    from_option, createNatGatewayRoutes.
  cbn [DescribeRouteTables CreateRouteTable AssociateRouteTable CreateRoute memEC2].
  unfold mem_describe. cbn [fst snd].
  destruct (filter (associated x) (mem_tables m)) as [|t ts] eqn:Hf; cbn.
  - destruct (mem_create_rt vpc m) as [m1 [e|newrt]] eqn:Hc;
      pose proof (mem_create_rt_cases _ _ _ _ Hc) as Hc'; cbn in Hc' |- *.
    + subst m1. split; [constructor|discriminate].
    + destruct Hc' as (Htab1 & Hroutes & Hfresh).
      assert (Hst1 : mem_step [x] m m1) by (eapply ms_create; eauto).
      destruct (mem_associate (RouteTableId newrt) x m1) as [m2 [e|[]]] eqn:Ha;
        pose proof (mem_associate_cases _ _ _ _ _ Ha) as Ha'; cbn in Ha' |- *.
      * subst m2. split; [econstructor; [exact Hst1|constructor]|discriminate].
      * destruct Ha' as (Htab2 & _).
        assert (Hst2 : mem_step [x] m1 m2) by (eapply ms_assoc; [left; reflexivity|eauto]).
        unfold routeTableIsConfigured. rewrite Hroutes. cbn.
        unfold bind, call, ret. cbn.
        destruct (mem_create_route (RouteTableId newrt) DefaultCidr gw m2) as [m3 [e|[]]] eqn:Hr;
          pose proof (mem_create_route_cases _ _ _ _ _ _ Hr) as Hr'; cbn in Hr' |- *.
        -- subst m3. split; [|discriminate].
           econstructor; [exact Hst1|]. econstructor; [exact Hst2|constructor].
        -- split.
           ++ econstructor; [exact Hst1|]. econstructor; [exact Hst2|].
              econstructor; [eapply ms_route; eauto|constructor].
           ++ intros _. unfold configured_in, first_table.
              rewrite Hr', Htab2, Htab1, !map_app, !filter_app.
              set (id := RouteTableId newrt) in *.
              assert (Hold : forall t, In t (mem_tables m) -> has_id id t = false).
              { intros t Ht. destruct (has_id id t) eqn:Hh; auto.
                assert (existsb (has_id id) (mem_tables m) = true)
                  by (apply existsb_exists; eauto). congruence. }
              rewrite map_map.
              rewrite (map_ext_in _ (fun t => t)) by
                  (intros t Ht; unfold add_assoc, add_route; rewrite (Hold t Ht);
                   rewrite (Hold t Ht); reflexivity).
              rewrite map_id, Hf. cbn.
              unfold add_assoc, has_id. cbn. rewrite String.eqb_refl. cbn.
              unfold add_route, has_id. cbn. rewrite String.eqb_refl. cbn.
              unfold associated. cbn. rewrite String.eqb_refl. cbn.
              eexists; split; [reflexivity|]. apply natRoute_configured.
  - unfold routeTableIsConfigured. cbn.
    destruct (routesConfigured (ts_routes t) gw) as [[|]|] eqn:Hc; cbn.
    + split; [constructor|]. intros _. exists t. unfold first_table. rewrite Hf. auto.
    + unfold bind, call, ret. cbn.
      destruct (mem_create_route (ts_id t) DefaultCidr gw m) as [m1 [e|[]]] eqn:Hr;
        pose proof (mem_create_route_cases _ _ _ _ _ _ Hr) as Hr'; cbn in Hr' |- *.
      * subst m1. split; [constructor|discriminate].
      * split; [econstructor; [eapply ms_route; eauto|constructor]|].
        intros _. unfold configured_in, first_table. rewrite Hr'.
        rewrite filter_map_comm by (intros; apply associated_add_route).
        rewrite Hf. cbn. eexists; split; [reflexivity|].
        unfold add_route, has_id. rewrite String.eqb_refl. cbn.
        rewrite (routesConfigured_app_false _ _ _ Hc). apply natRoute_configured.
    + split; [constructor|discriminate].
Qed.

Lemma updateNatStep_refs (S E : Type) (svc : EC2 S E) (vpc gw x : string) (s : S) (tr : trace E) :
  let '((_, tr'), _) := updateNatStep S E svc vpc gw x (s, tr) in
  exists seg, tr' = tr ++ seg /\ refs_only (eq x) seg.
Proof.
  unfold updateNatStep, bind at 1.
  destruct (createRouteTable_shape S E svc vpc x s tr)
    as (s' & seg & r & Heq & Hrefs & _ & _).
  rewrite Heq. destruct r as [e|rt]; [cbn; eauto|].
  unfold from_option, bind.
  destruct (routeTableIsConfigured rt gw) as [[|]|]; cbn; eauto.
  unfold createNatGatewayRoutes, bind, call, ret.
  destruct (CreateRoute svc (RouteTableId rt) DefaultCidr gw s') as [s2 r2]; cbn.
  exists (seg ++ [(CCreateRoute (RouteTableId rt) DefaultCidr gw, err_of E r2)]).
  rewrite app_assoc. split; [reflexivity|].
  apply refs_only_app; auto. repeat constructor. cbn. discriminate.
Qed.

(** An iteration for a subnet that is already configured is the lookup
    alone and leaves the provider unchanged. *)
Lemma mem_updateNatStep_configured (vpc gw x : string) (m : MemEC2) (tr : trace string) :
  configured_in gw m x ->
  updateNatStep _ _ memEC2 vpc gw x (m, tr) =
  ((m, tr ++ [(CDescribeRouteTables x, None)]), Some None).
Proof.
  intros (t & Ht & Hc). unfold first_table in Ht.
  unfold updateNatStep, createRouteTable, routingTableBySubnetID, bind, call, ret,
    from_option.
  cbn [DescribeRouteTables memEC2]. unfold mem_describe. cbn [fst snd].
  destruct (filter (associated x) (mem_tables m)) as [|t' ts]; cbn in Ht |- *;
    [discriminate|].
  injection Ht as ->. unfold routeTableIsConfigured. cbn. rewrite Hc. reflexivity.
Qed.

Lemma mem_updateNatLoop (vpc gw : string) (ids : list string) :
  forall m tr,
  let '((m', _), r) := updateNatLoop _ _ memEC2 vpc gw ids (m, tr) in
  mem_steps ids m m' /\ (r = Some None -> forall x, In x ids -> configured_in gw m' x).
Proof.
  induction ids as [|x rest IH]; intros m tr.
  - cbn. split; [constructor|]. intros _ x [].
  - rewrite updateNatLoop_cons.
    pose proof (mem_updateNatStep vpc gw x m tr) as Hstep.
    destruct (updateNatStep _ _ memEC2 vpc gw x (m, tr)) as [[m1 tr1] r1].
    destruct Hstep as [Hs1 Hc1].
    assert (Hsub1 : forall y, In y [x] -> In y (x :: rest))
      by (intros y [<-|[]]; left; reflexivity).
    destruct r1 as [[e|]|].
    + split; [eapply mem_steps_mono; eauto|discriminate].
    + specialize (IH m1 tr1).
      destruct (updateNatLoop _ _ memEC2 vpc gw rest (m1, tr1)) as [[m2 tr2] r2].
      destruct IH as [Hs2 Hc2]. split.
      * eapply mem_steps_trans.
        -- eapply mem_steps_mono; [|exact Hs1]. exact Hsub1.
        -- eapply mem_steps_mono; [|exact Hs2]. intros y Hy. right. exact Hy.
      * intros Hr2 y [<-|Hy].
        -- eapply mem_steps_configured; [exact Hs2|]. apply Hc1. reflexivity.
        -- apply Hc2; auto.
    + split; [eapply mem_steps_mono; eauto|discriminate].
Qed.

(** A run over subnets that are all configured is lookups only. *)
Lemma mem_updateNatLoop_configured (vpc gw : string) (ids : list string) :
  forall m tr, (forall x, In x ids -> configured_in gw m x) ->
  updateNatLoop _ _ memEC2 vpc gw ids (m, tr) =
  ((m, tr ++ map (fun x => (CDescribeRouteTables x, None)) ids), Some None).
Proof.
  induction ids as [|x rest IH]; intros m tr Hall.
  - cbn. rewrite app_nil_r. reflexivity.
  - rewrite updateNatLoop_cons, mem_updateNatStep_configured by (apply Hall; left; auto).
    rewrite IH by (intros y Hy; apply Hall; right; auto).
    rewrite <- app_assoc. reflexivity.
Qed.

(** Case on a run of the loop that a hypothesis and the goal both mention
    (their pairs may differ in the spelling of the trace type). *)
Ltac destruct_run H m t r :=
  lazymatch type of H with
  | context [updateNatLoop ?S ?E ?svc ?v ?g ?l ?st] =>
      try lazymatch goal with
      | |- context [updateNatLoop S E svc v g l ?st'] => change st' with st
      end;
      revert H; destruct (updateNatLoop S E svc v g l st) as [[m t] r]; intros H;
      cbn in H |- *
  end.

(** Once [s] is configured, later iterations name [s] only in lookups. *)
Lemma mem_updateNatLoop_after (vpc gw s : string) (ids : list string) :
  forall m tr, configured_in gw m s ->
  let '((_, tr'), _) := updateNatLoop _ _ memEC2 vpc gw ids (m, tr) in
  exists trq, tr' = tr ++ trq /\
    Forall (fun ent => call_subnet (fst ent) = Some s -> fst ent = CDescribeRouteTables s) trq.
Proof.
  induction ids as [|x rest IH]; intros m tr Hs.
  - cbn. exists []. rewrite app_nil_r. auto.
  - rewrite updateNatLoop_cons.
    pose proof (mem_updateNatStep vpc gw x m tr) as Hstep.
    pose proof (updateNatStep_refs _ _ memEC2 vpc gw x m tr) as Hrefs.
    destruct (String.eqb_spec x s) as [->|Hxs].
    + rewrite (mem_updateNatStep_configured vpc gw s m tr Hs).
      specialize (IH m (tr ++ [(CDescribeRouteTables s, None)]) Hs).
      destruct_run IH m2 tr2 r2.
      destruct IH as (trq & -> & Hq). exists ((CDescribeRouteTables s, None) :: trq).
      rewrite <- app_assoc. split; [reflexivity|]. constructor; auto.
    + revert Hstep Hrefs.
      destruct (updateNatStep _ _ memEC2 vpc gw x (m, tr)) as [[m1 tr1] r1].
      intros [Hs1 _] (seg & -> & Hseg).
      assert (Hseg' : Forall (fun ent => call_subnet (fst ent) = Some s ->
                                         fst ent = CDescribeRouteTables s) seg).
      { eapply Forall_impl; [|exact Hseg]. intros [c o] H Hc. cbn in *.
        specialize (H s Hc). congruence. }
      assert (Hs1' : configured_in gw m1 s) by (eapply mem_steps_configured; eauto).
      destruct r1 as [[e|]|]; cbn; try (exists seg; auto).
      specialize (IH m1 (tr ++ seg) Hs1').
      destruct_run IH m2 tr2 r2.
      destruct IH as (trq & -> & Hq). exists (seg ++ trq).
      rewrite app_assoc. split; [reflexivity|]. apply Forall_app; auto.
Qed.

(** A successful iteration for a subnet with no associated table is:
    the lookup, create-route-table in the VPC, associate it with the
    subnet, create-route [0.0.0.0/0 -> gw] in it. *)
Lemma mem_updateNatStep_fresh (vpc gw x : string) (m : MemEC2) (tr : trace string) :
  filter (associated x) (mem_tables m) = [] ->
  let '((_, tr'), r) := updateNatStep _ _ memEC2 vpc gw x (m, tr) in
  r = Some None ->
  exists rt, tr' = tr ++ [(CDescribeRouteTables x, None); (CCreateRouteTable vpc, None);
                          (CAssociateRouteTable rt x, None);
                          (CCreateRoute rt DefaultCidr gw, None)].
Proof.
  intros Hf.
  unfold updateNatStep, createRouteTable, routingTableBySubnetID, bind, call, ret,
    from_option.
  cbn [DescribeRouteTables CreateRouteTable AssociateRouteTable CreateRoute memEC2].
  unfold mem_describe. cbn [fst snd]. rewrite Hf. cbn.
  destruct (mem_create_rt vpc m) as [m1 [e|newrt]] eqn:Hc; cbn; [discriminate|].
  pose proof (mem_create_rt_cases _ _ _ _ Hc) as (_ & Hroutes & _).
  destruct (mem_associate (RouteTableId newrt) x m1) as [m2 [e|[]]]; cbn; [discriminate|].
  unfold routeTableIsConfigured. rewrite Hroutes. cbn.
  unfold createNatGatewayRoutes, bind, call, ret. cbn.
  destruct (mem_create_route (RouteTableId newrt) DefaultCidr gw m2) as [m3 [e|[]]]; cbn;
    [discriminate|].
  intros _. exists (RouteTableId newrt). rewrite <- !app_assoc. reflexivity.
Qed.

Lemma updateNatLoop_refs (S E : Type) (svc : EC2 S E) (vpc gw : string) (ids : list string) :
  forall s tr,
  let '((_, tr'), _) := updateNatLoop S E svc vpc gw ids (s, tr) in
  exists seg, tr' = tr ++ seg /\ refs_only (fun y => In y ids) seg.
Proof.
  induction ids as [|x rest IH]; intros s tr.
  - cbn. exists []. rewrite app_nil_r. split; [reflexivity|constructor].
  - rewrite updateNatLoop_cons.
    pose proof (updateNatStep_refs S E svc vpc gw x s tr) as Hstep.
    revert Hstep.
    destruct (updateNatStep S E svc vpc gw x (s, tr)) as [[s1 tr1] r1].
    intros (seg & -> & Hseg).
    assert (Hseg' : refs_only (fun y => In y (x :: rest)) seg).
    { eapply refs_only_weaken; [|exact Hseg]. intros y <-. left. reflexivity. }
    destruct r1 as [[e|]|]; cbn; try (exists seg; auto).
    specialize (IH s1 (tr ++ seg)).
    destruct_run IH s2 tr2 r2.
    destruct IH as (seg2 & -> & Hseg2). exists (seg ++ seg2).
    rewrite app_assoc. split; [reflexivity|]. apply refs_only_app; auto.
    eapply refs_only_weaken; [|exact Hseg2]. intros y Hy. right. exact Hy.
Qed.

(** C1: against the in-memory provider, take a subnet [s] of the Event's
    list (first occurring after [pre]) that has no associated table, and
    a run that returns [nil].  The calls of the run are those of the
    subnets before [s] (none naming [s]), then for [s] the lookup,
    create-route-table in the Event's VPC, associate that table with [s],
    create-route [0.0.0.0/0 -> NatGatewayAWSID] in it, in that order, then
    calls that name [s] only in lookups.  A second run against the
    resulting provider state issues lookups only, changes nothing and
    returns [nil]. *)
Theorem updateNat_converges (ev : Event) (m0 m1 : MemEC2) (tr1 : trace string)
    (pre post : list string) (s : string) :
  slice_elems (RoutedNetworkAWSIDs ev) = pre ++ s :: post ->
  ~ In s pre ->
  filter (associated s) (mem_tables m0) = [] ->
  updateNat _ _ memEC2 ev (m0, []) = ((m1, tr1), Some None) ->
  (exists mp trp rt trq,
     updateNatLoop _ _ memEC2 (VPCID ev) (NatGatewayAWSID ev) pre (m0, []) =
       ((mp, trp), Some None) /\
     Forall (fun ent => call_subnet (fst ent) <> Some s) trp /\
     tr1 = trp ++ [(CDescribeRouteTables s, None); (CCreateRouteTable (VPCID ev), None);
                   (CAssociateRouteTable rt s, None);
                   (CCreateRoute rt DefaultCidr (NatGatewayAWSID ev), None)] ++ trq /\
     Forall (fun ent => call_subnet (fst ent) = Some s -> fst ent = CDescribeRouteTables s) trq) /\
  updateNat _ _ memEC2 ev (m1, []) =
    ((m1, map (fun x => (CDescribeRouteTables x, None)) (slice_elems (RoutedNetworkAWSIDs ev))),
     Some None).
Proof.
  intros Hids Hpre Hnone Hrun.
  unfold updateNat in *. remember (VPCID ev) as vpc eqn:Hvpc. remember (NatGatewayAWSID ev) as gw eqn:Hgw.
  split.
  - rewrite Hids, updateNatLoop_app in Hrun.
    pose proof (mem_updateNatLoop vpc gw pre m0 []) as Hpre_run.
    pose proof (updateNatLoop_refs _ _ memEC2 vpc gw pre m0 []) as Hpre_refs.
    change (list (Call * option string)) with (trace string) in *.
    revert Hrun Hpre_run Hpre_refs.
    destruct (updateNatLoop _ _ memEC2 vpc gw pre (@pair MemEC2 (trace string) m0 [])) as [[mp trp] rp].
    intros Hrun Hpre_run Hpre_refs. cbn in Hpre_run, Hpre_refs.
    destruct Hpre_run as [Hsteps _]. destruct Hpre_refs as (segp & Htrp & Hrefsp).
    cbn in Htrp. subst trp.
    destruct rp as [[e|]|]; try discriminate.
    assert (Hnone_p : filter (associated s) (mem_tables mp) = [])
      by (eapply mem_steps_no_table; eauto).
    rewrite updateNatLoop_cons in Hrun.
    pose proof (mem_updateNatStep_fresh vpc gw s mp segp Hnone_p) as Hfresh.
    pose proof (mem_updateNatStep vpc gw s mp segp) as Hstep.
    change (list (Call * option string)) with (trace string) in *.
    revert Hrun Hfresh Hstep.
    destruct (updateNatStep _ _ memEC2 vpc gw s (@pair MemEC2 (trace string) mp segp)) as [[m2 tr2] r2].
    intros Hrun Hfresh Hstep. cbn in Hfresh, Hstep. destruct Hstep as [_ Hconf].
    destruct r2 as [[e|]|]; try (injection Hrun; intros; discriminate).
    destruct (Hfresh eq_refl) as [rt ->].
    pose proof (mem_updateNatLoop_after vpc gw s post m2
                  (segp ++ [(CDescribeRouteTables s, None); (CCreateRouteTable vpc, None);
                            (CAssociateRouteTable rt s, None);
                            (CCreateRoute rt DefaultCidr gw, None)]) (Hconf eq_refl)) as Hpost.
    destruct_run Hpost m3 tr3 r3.
    injection Hrun as -> -> ->.
    destruct Hpost as (trq & -> & Hq).
    exists mp, segp, rt, trq. repeat split; auto.
    eapply Forall_impl; [|exact Hrefsp]. intros [c o] H Hc. cbn in *.
    apply Hpre. apply (H s). exact Hc.
    rewrite <- app_assoc. reflexivity.
  - pose proof (mem_updateNatLoop vpc gw (slice_elems (RoutedNetworkAWSIDs ev)) m0 []) as H.
    change (list (Call * option string)) with (trace string) in *.
    rewrite Hrun in H. destruct H as [_ Hall].
    apply mem_updateNatLoop_configured. apply Hall. reflexivity.
Qed.

(** Witness for C1: the test event against an empty provider. *)
Lemma updateNat_converges_witness :
  let run1 := updateNat _ _ memEC2 testEvent (mkMemEC2 [] 0, []) in
  updateNat _ _ memEC2 testEvent (mkMemEC2 [] 0, []) =
    ((fst (fst run1), snd (fst run1)), Some None) /\
  ((exists mp trp rt trq,
     updateNatLoop _ _ memEC2 (VPCID testEvent) (NatGatewayAWSID testEvent) [] (mkMemEC2 [] 0, []) =
       ((mp, trp), Some None) /\
     Forall (fun ent => call_subnet (fst ent) <> Some "subnet-00000001") trp /\
     snd (fst run1) = trp ++ [(CDescribeRouteTables "subnet-00000001", None);
                   (CCreateRouteTable (VPCID testEvent), None);
                   (CAssociateRouteTable rt "subnet-00000001", None);
                   (CCreateRoute rt DefaultCidr (NatGatewayAWSID testEvent), None)] ++ trq /\
     Forall (fun ent => call_subnet (fst ent) = Some "subnet-00000001" ->
                        fst ent = CDescribeRouteTables "subnet-00000001") trq) /\
  updateNat _ _ memEC2 testEvent (fst (fst run1), []) =
    ((fst (fst run1), map (fun x => (CDescribeRouteTables x, None))
                           (slice_elems (RoutedNetworkAWSIDs testEvent))),
     Some None)).
Proof.
  intros run1. split.
  - vm_compute. reflexivity.
  - apply (updateNat_converges testEvent (mkMemEC2 [] 0) (fst (fst run1)) (snd (fst run1))
             [] [] "subnet-00000001").
    + reflexivity.
    + intros [].
    + reflexivity.
    + vm_compute. reflexivity.
Defined.


(* ------------------------------------------------------------------ *)
(** ** JSON roundtrip of the Event. *)

Open Scope string_scope.

(** *** Runes: decoding and encoding. *)

Lemma byte_range (c : ascii) : (0 <= byte c < 256)%Z.
Proof.
  unfold byte. pose proof (N_ascii_bounded c). lia.
Qed.

Lemma chr_byte (c : ascii) : chr (byte c) = c.
Proof. unfold chr, byte. rewrite N2Z.id. apply ascii_N_embedding. Qed.

Open Scope Z_scope.

Lemma lor_add (a b k : Z) :
  0 <= k -> 0 <= b < 2 ^ k -> a mod 2 ^ k = 0 -> Z.lor a b = a + b.
Proof.
  intros Hk Hb Ha.
  assert (Hl : Z.land a b = 0).
  { apply Z.bits_inj'. intros i Hi. rewrite Z.land_spec, Z.bits_0.
    destruct (Z.lt_ge_cases i k) as [Hik | Hik].
    - replace a with (2 ^ k * (a / 2 ^ k) + a mod 2 ^ k)
        by (symmetry; apply Z.div_mod; apply Z.pow_nonzero; lia).
      rewrite Ha, Z.add_0_r, Z.mul_comm, <- Z.shiftl_mul_pow2 by lia.
      rewrite Z.shiftl_spec_low by lia. reflexivity.
    - rewrite <- (Z.mod_small b (2 ^ k)) by lia.
      rewrite Z.mod_pow2_bits_high by lia. apply andb_false_r. }
  rewrite <- Z.lxor_lor by exact Hl. rewrite Z.add_nocarry_lxor by exact Hl. reflexivity.
Qed.

Lemma land_ones' (x k : Z) : 0 <= k -> Z.land x (Z.ones k) = x mod 2 ^ k.
Proof. intros. apply Z.land_ones. lia. Qed.

Ltac arith_bits :=
  unfold to_byte, mask2, mask3, mask4, maskx, t2, t3, t4, tx in *;
  change 0x3F with (Z.ones 6) in *;
  change 0x1F with (Z.ones 5) in *;
  change 0x0F with (Z.ones 4) in *;
  change 0x07 with (Z.ones 3) in *;
  change 0xFF with (Z.ones 8) in *;
  change 0xFFFFFFFF with (Z.ones 32) in *;
  repeat rewrite land_ones' by lia;
  repeat rewrite Z.shiftl_mul_pow2 by lia;
  repeat rewrite Z.shiftr_div_pow2 by lia;
  change (2 ^ 3) with 8 in *; change (2 ^ 4) with 16 in *;
  change (2 ^ 5) with 32 in *; change (2 ^ 6) with 64 in *;
  change (2 ^ 8) with 256 in *; change (2 ^ 12) with 4096 in *;
  change (2 ^ 18) with 262144 in *; change (2 ^ 32) with 4294967296 in *.

Ltac zlia :=
  try change (2 ^ 6) with 64 in *; try change (2 ^ 12) with 4096 in *;
  try change (2 ^ 18) with 262144 in *;
  Z.div_mod_to_equations; lia.

Ltac str_eq :=
  repeat (apply (f_equal2 String); [apply (f_equal chr); zlia |]); reflexivity.

Lemma dec2_val (p0 b1 : Z) :
  0xC2 <= p0 <= 0xDF -> 0x80 <= b1 <= 0xBF ->
  Z.lor (Z.shiftl (Z.land p0 mask2) 6) (Z.land b1 maskx) = (p0 - 0xC0) * 64 + (b1 - 0x80).
Proof.
  intros H0 H1. arith_bits.
  rewrite (lor_add _ _ 6) by zlia. zlia.
Qed.

Lemma dec3_val (p0 b1 b2 : Z) :
  0xE0 <= p0 <= 0xEF -> 0x80 <= b1 <= 0xBF -> 0x80 <= b2 <= 0xBF ->
  Z.lor (Z.lor (Z.shiftl (Z.land p0 mask3) 12) (Z.shiftl (Z.land b1 maskx) 6))
        (Z.land b2 maskx)
  = (p0 - 0xE0) * 4096 + (b1 - 0x80) * 64 + (b2 - 0x80).
Proof.
  intros H0 H1 H2. arith_bits.
  rewrite (lor_add (_ * 4096) _ 12) by zlia.
  rewrite (lor_add _ _ 6) by zlia. zlia.
Qed.

Lemma dec4_val (p0 b1 b2 b3 : Z) :
  0xF0 <= p0 <= 0xF4 -> 0x80 <= b1 <= 0xBF -> 0x80 <= b2 <= 0xBF -> 0x80 <= b3 <= 0xBF ->
  Z.lor (Z.lor (Z.lor (Z.shiftl (Z.land p0 mask4) 18) (Z.shiftl (Z.land b1 maskx) 12))
               (Z.shiftl (Z.land b2 maskx) 6))
        (Z.land b3 maskx)
  = (p0 - 0xF0) * 262144 + (b1 - 0x80) * 4096 + (b2 - 0x80) * 64 + (b3 - 0x80).
Proof.
  intros H0 H1 H2 H3. arith_bits.
  rewrite (lor_add (_ * 262144) _ 18) by zlia.
  rewrite (lor_add _ (_ * 64) 12) by zlia.
  rewrite (lor_add _ _ 6) by zlia. zlia.
Qed.

Lemma enc1 (r : Z) : 0 <= r <= 0x7F -> EncodeRune r = String (chr r) EmptyString.
Proof.
  intros H. unfold EncodeRune. arith_bits.
  rewrite (Z.mod_small r) by lia.
  replace (r <=? rune1Max) with true by (symmetry; apply Z.leb_le; unfold rune1Max; lia).
  rewrite (Z.mod_small r 256) by lia. reflexivity.
Qed.

Lemma enc2 (r : Z) : 0x80 <= r <= 0x7FF ->
  EncodeRune r = String (chr (0xC0 + r / 64)) (String (chr (0x80 + r mod 64)) EmptyString).
Proof.
  intros H. unfold EncodeRune. arith_bits.
  rewrite (Z.mod_small r 4294967296) by lia.
  replace (r <=? rune1Max) with false by (symmetry; apply Z.leb_gt; unfold rune1Max; zlia).
  replace (r <=? rune2Max) with true by (symmetry; apply Z.leb_le; unfold rune2Max; lia).
  rewrite (Z.mod_small (r / 64) 256) by zlia.
  rewrite (lor_add 0xC0 _ 6) by zlia.
  rewrite (Z.mod_mod_divide r 256 64) by (exists 4; reflexivity).
  rewrite (lor_add 0x80 _ 6) by zlia.
  reflexivity.
Qed.

Lemma enc3 (r : Z) : 0x800 <= r <= 0xFFFF -> ~ (0xD800 <= r <= 0xDFFF) ->
  EncodeRune r = String (chr (0xE0 + r / 4096))
                  (String (chr (0x80 + (r / 64) mod 64))
                  (String (chr (0x80 + r mod 64)) EmptyString)).
Proof.
  intros H Hs. unfold EncodeRune. arith_bits.
  rewrite (Z.mod_small r 4294967296) by lia.
  replace (r <=? rune1Max) with false by (symmetry; apply Z.leb_gt; unfold rune1Max; lia).
  replace (r <=? rune2Max) with false by (symmetry; apply Z.leb_gt; unfold rune2Max; lia).
  replace ((MaxRune <? r) || ((surrogateMin <=? r) && (r <=? surrogateMax))) with false.
  2:{ unfold MaxRune, surrogateMin, surrogateMax.
      destruct (Z.leb_spec 0xD800 r); destruct (Z.leb_spec r 0xDFFF);
      destruct (Z.ltb_spec 0x10FFFF r); simpl; lia. }
  replace (r <=? rune3Max) with true by (symmetry; apply Z.leb_le; unfold rune3Max; lia).
  simpl orb. cbv iota beta.
  rewrite (lor_add 224 _ 4) by (change (2 ^ 4) with 16; zlia).
  repeat rewrite (lor_add 128 _ 6) by zlia.
  str_eq.
Qed.

Lemma enc4 (r : Z) : 0x10000 <= r <= 0x10FFFF ->
  EncodeRune r = String (chr (0xF0 + r / 262144))
                  (String (chr (0x80 + (r / 4096) mod 64))
                  (String (chr (0x80 + (r / 64) mod 64))
                  (String (chr (0x80 + r mod 64)) EmptyString))).
Proof.
  intros H. unfold EncodeRune. arith_bits.
  rewrite (Z.mod_small r 4294967296) by lia.
  replace (r <=? rune1Max) with false by (symmetry; apply Z.leb_gt; unfold rune1Max; lia).
  replace (r <=? rune2Max) with false by (symmetry; apply Z.leb_gt; unfold rune2Max; lia).
  replace ((MaxRune <? r) || ((surrogateMin <=? r) && (r <=? surrogateMax))) with false.
  2:{ unfold MaxRune, surrogateMin, surrogateMax.
      destruct (Z.leb_spec 0xD800 r); destruct (Z.leb_spec r 0xDFFF);
      destruct (Z.ltb_spec 0x10FFFF r); simpl; lia. }
  replace (r <=? rune3Max) with false by (symmetry; apply Z.leb_gt; unfold rune3Max; lia).
  simpl orb. cbv iota beta.
  rewrite (lor_add 240 _ 3) by (change (2 ^ 3) with 8; zlia).
  repeat rewrite (lor_add 128 _ 6) by zlia.
  str_eq.
Qed.

Ltac bool_to_prop :=
  repeat match goal with
  | H : (_ && _)%bool = true |- _ => apply andb_true_iff in H; destruct H
  | H : (_ || _)%bool = false |- _ => apply orb_false_iff in H; destruct H
  | H : (_ <=? _) = true |- _ => apply Z.leb_le in H
  | H : (_ <=? _) = false |- _ => apply Z.leb_gt in H
  | H : (_ <? _) = true |- _ => apply Z.ltb_lt in H
  | H : (_ <? _) = false |- _ => apply Z.ltb_ge in H
  | H : (_ =? _) = true |- _ => apply Z.eqb_eq in H
  | H : (_ =? _) = false |- _ => apply Z.eqb_neq in H
  | H : (_ && _)%bool = false |- _ => apply andb_false_iff in H; destruct H
  end.

Lemma first_cases (p0 : Z) (sz : nat) (lo hi : Z) :
  first p0 = Some (sz, (lo, hi)) ->
  (sz = 2%nat /\ 0xC2 <= p0 <= 0xDF /\ lo = 0x80 /\ hi = 0xBF) \/
  (sz = 3%nat /\ 0xE0 <= p0 <= 0xEF /\ 0x80 <= lo /\ hi <= 0xBF
   /\ (p0 = 0xE0 -> lo = 0xA0) /\ (p0 = 0xED -> hi = 0x9F)) \/
  (sz = 4%nat /\ 0xF0 <= p0 <= 0xF4 /\ 0x80 <= lo /\ hi <= 0xBF
   /\ (p0 = 0xF0 -> lo = 0x90) /\ (p0 = 0xF4 -> hi = 0x8F)).
Proof.
  unfold first. intros H.
  repeat match type of H with
  | (if ?b then _ else _) = _ => let E := fresh "E" in destruct b eqn:E
  end; try discriminate; injection H; intros; subst; bool_to_prop;
  first [ left; lia | right; left; lia | right; right; lia ].
Qed.


Close Scope Z_scope.

(** *** A decoded multi-byte rune is re-encoded to its own bytes. *)

Open Scope Z_scope.

Lemma chr_eq_byte (a : Z) (c : ascii) : a = byte c -> chr a = c.
Proof. intros ->. apply chr_byte. Qed.

Ltac str_eq2 :=
  repeat (apply (f_equal2 String); [apply chr_eq_byte; zlia |]); reflexivity.

Ltac err_case H Hne :=
  injection H; intros; subst; exfalso; apply Hne; split; reflexivity.

Lemma rune_valid (c0 : ascii) (p1 : string) (r : Z) (n : nat) :
  RuneSelf <= byte c0 -> DecodeRune (String c0 p1) = (r, n) -> ~ (r = RuneError /\ n = 1%nat) ->
  (2 <= n <= String.length (String c0 p1))%nat /\
  all_high (str_take n (String c0 p1)) /\
  EncodeRune r = str_take n (String c0 p1) /\
  (forall Y, DecodeRune (str_take n (String c0 p1) ++ Y) = (r, n)).
Proof.
  intros Hb H Hne.
  assert (Hlt : (byte c0 <? RuneSelf) = false) by (apply Z.ltb_ge; lia).
  unfold DecodeRune in H. cbv zeta in H. rewrite Hlt in H.
  destruct (first (byte c0)) as [[sz [lo hi]]|] eqn:F; [| err_case H Hne].
  destruct (Nat.ltb (String.length (String c0 p1)) sz) eqn:L; [err_case H Hne|].
  apply Nat.ltb_ge in L.
  destruct p1 as [|c1 p2]; [err_case H Hne|].
  destruct ((byte c1 <? lo) || (hi <? byte c1)) eqn:B1; [err_case H Hne|].
  pose proof B1 as B1p. apply orb_false_iff in B1p. destruct B1p as [B1a B1b].
  apply Z.ltb_ge in B1a. apply Z.ltb_ge in B1b.
  pose proof (byte_range c1) as R1.
  apply first_cases in F as Fc.
  destruct (Nat.eqb sz 2) eqn:S2.
  - injection H as Hr Hn; subst n. apply Nat.eqb_eq in S2; subst sz.
    destruct Fc as [[_ [Hp0 [-> ->]]] | [[? _]|[? _]]]; [|discriminate..].
    assert (Hr2 : r = (byte c0 - 0xC0) * 64 + (byte c1 - 0x80))
      by (rewrite <- Hr; apply dec2_val; lia).
    split; [simpl; lia|]. split; [simpl; unfold RuneSelf in *; repeat split; lia|]. split.
    + rewrite Hr2, enc2 by zlia. simpl str_take. str_eq2.
    + intros Y. simpl str_take. simpl append. rewrite <- Hr.
      unfold DecodeRune. cbv zeta.
      rewrite Hlt, F, B1. reflexivity.
  - destruct p2 as [|c2 p3]; [err_case H Hne|].
    destruct ((byte c2 <? locb) || (hicb <? byte c2)) eqn:B2; [err_case H Hne|].
    pose proof B2 as B2p. apply orb_false_iff in B2p. destruct B2p as [B2a B2b].
    apply Z.ltb_ge in B2a. apply Z.ltb_ge in B2b. unfold locb, hicb in B2a, B2b.
    destruct (Nat.eqb sz 3) eqn:S3.
    + injection H as Hr Hn; subst n. apply Nat.eqb_eq in S3; subst sz.
      destruct Fc as [[? _] | [[_ [Hp0 [Hlo [Hhi [HE0 HED]]]]]|[? _]]]; [discriminate| |discriminate].
      assert (Hr2 : r = (byte c0 - 0xE0) * 4096 + (byte c1 - 0x80) * 64 + (byte c2 - 0x80))
        by (rewrite <- Hr; apply dec3_val; lia).
      assert (Hrange : 0x800 <= r <= 0xFFFF /\ ~ (0xD800 <= r <= 0xDFFF)).
      { destruct (Z.eq_dec (byte c0) 0xE0) as [e|e]; [specialize (HE0 e)|];
        (destruct (Z.eq_dec (byte c0) 0xED) as [e'|e']; [specialize (HED e')|]); lia. }
      split; [simpl; lia|]. split; [simpl; unfold RuneSelf in *; repeat split; lia|]. split.
      * rewrite Hr2 in *. rewrite enc3 by lia. simpl str_take. str_eq2.
      * intros Y. simpl str_take. simpl append. rewrite <- Hr.
        unfold DecodeRune. cbv zeta. rewrite Hlt, F.
        cbv beta iota zeta. rewrite B1, B2. reflexivity.
    + destruct p3 as [|c3 p4]; [err_case H Hne|].
      destruct ((byte c3 <? locb) || (hicb <? byte c3)) eqn:B3; [err_case H Hne|].
      pose proof B3 as B3p. apply orb_false_iff in B3p. destruct B3p as [B3a B3b].
      apply Z.ltb_ge in B3a. apply Z.ltb_ge in B3b. unfold locb, hicb in B3a, B3b.
      injection H as Hr Hn; subst n.
      destruct Fc as [[? _] | [[? _]|[Hs [Hp0 [Hlo [Hhi [HF0 HF4]]]]]]];
        [subst sz; discriminate | subst sz; discriminate |]. subst sz.
      assert (Hr2 : r = (byte c0 - 0xF0) * 262144 + (byte c1 - 0x80) * 4096
                        + (byte c2 - 0x80) * 64 + (byte c3 - 0x80))
        by (rewrite <- Hr; apply dec4_val; lia).
      assert (Hrange : 0x10000 <= r <= 0x10FFFF).
      { destruct (Z.eq_dec (byte c0) 0xF0) as [e|e]; [specialize (HF0 e)|];
        (destruct (Z.eq_dec (byte c0) 0xF4) as [e'|e']; [specialize (HF4 e')|]); lia. }
      split; [simpl; lia|]. split; [simpl; unfold RuneSelf in *; repeat split; lia|]. split.
      * rewrite Hr2 in *. rewrite enc4 by lia. simpl str_take. str_eq2.
      * intros Y. simpl str_take. simpl append. rewrite <- Hr.
        unfold DecodeRune. cbv zeta. rewrite Hlt, F.
        cbv beta iota zeta. rewrite B1, B2, B3. reflexivity.
Qed.


Close Scope Z_scope.

(** *** Strings and the unquoting loop. *)

Lemma str_app_assoc (a b c : string) : (a ++ b) ++ c = a ++ (b ++ c).
Proof. induction a; simpl; [reflexivity | rewrite IHa; reflexivity]. Qed.

Lemma str_app_nil_r (a : string) : a ++ EmptyString = a.
Proof. induction a; simpl; [reflexivity | rewrite IHa; reflexivity]. Qed.

Lemma str_length_app (a b : string) : String.length (a ++ b) = String.length a + String.length b.
Proof. induction a; simpl; [reflexivity | rewrite IHa; reflexivity]. Qed.

Lemma str_drop_length (n : nat) (s : string) :
  String.length (str_drop n s) = String.length s - n.
Proof.
  revert s; induction n; intros [|c s]; simpl; try reflexivity; try lia.
  apply IHn.
Qed.

Lemma str_take_length (n : nat) (s : string) :
  n <= String.length s -> String.length (str_take n s) = n.
Proof.
  revert s; induction n; intros [|c s] H; simpl in *; try reflexivity; try lia.
  rewrite IHn by lia. reflexivity.
Qed.

Lemma str_take_drop (n : nat) (s : string) : str_take n s ++ str_drop n s = s.
Proof.
  revert s; induction n; intros [|c s]; simpl; try reflexivity.
  rewrite IHn. reflexivity.
Qed.

Lemma str_take_app (a b : string) : str_take (String.length a) (a ++ b) = a.
Proof. induction a; simpl; [reflexivity | rewrite IHa; reflexivity]. Qed.

Lemma str_drop_app (a b : string) : str_drop (String.length a) (a ++ b) = b.
Proof. induction a; simpl; [reflexivity | exact IHa]. Qed.

Lemma str_drop_add (a b : nat) (s : string) : str_drop (a + b) s = str_drop b (str_drop a s).
Proof.
  revert s; induction a; intros [|c s]; simpl; try reflexivity.
  - destruct b; reflexivity.
  - apply IHa.
Qed.

Lemma str_take_add (a b : nat) (s : string) :
  str_take (a + b) s = str_take a s ++ str_take b (str_drop a s).
Proof.
  revert s; induction a; intros [|c s]; simpl; try reflexivity.
  - destruct b; reflexivity.
  - rewrite IHa. reflexivity.
Qed.

Lemma str_take_all (s : string) : str_take (String.length s) s = s.
Proof. induction s; simpl; [reflexivity | rewrite IHs; reflexivity]. Qed.

Lemma str_drop_all (s : string) : str_drop (String.length s) s = EmptyString.
Proof. induction s; simpl; [reflexivity | exact IHs]. Qed.

Lemma decode_ascii (c : ascii) (p : string) :
  (byte c < RuneSelf)%Z -> DecodeRune (String c p) = (byte c, 1%nat).
Proof.
  intros H. unfold DecodeRune. cbv zeta.
  replace (byte c <? RuneSelf)%Z with true by (symmetry; apply Z.ltb_lt; exact H).
  reflexivity.
Qed.

Lemma decode_size (c : ascii) (p : string) (r : Z) (n : nat) :
  DecodeRune (String c p) = (r, n) -> 1 <= n <= String.length (String c p).
Proof.
  intros H.
  destruct (Z.ltb_spec (byte c) RuneSelf) as [Hl | Hl].
  - rewrite decode_ascii in H by exact Hl. injection H as _ <-. simpl. lia.
  - destruct (Z.eq_dec r RuneError) as [Hr|Hr]; [destruct (Nat.eq_dec n 1) as [Hn|Hn]|].
    + subst n. simpl. lia.
    + destruct (rune_valid c p r n Hl H) as [Hs _]; [intros [_ ?]; contradiction | lia].
    + destruct (rune_valid c p r n Hl H) as [Hs _]; [intros [? _]; contradiction | lia].
Qed.

Ltac len_tac :=
  repeat rewrite str_drop_length in *; simpl String.length in *; lia.

Lemma unquote_loop_fuel (n m : nat) (s : string) :
  String.length s <= n -> String.length s <= m -> unquote_loop n s = unquote_loop m s.
Proof.
  revert m s; induction n as [|n IHn]; intros m s Hn Hm.
  - destruct s; [destruct m; reflexivity | simpl in Hn; lia].
  - destruct s as [|c rest]; [destruct m; reflexivity|].
    destruct m as [|m]; [simpl in Hm; lia|].
    cbn [unquote_loop]. destruct (Ascii.eqb c bs).
    + destruct rest as [|e rest']; [reflexivity|].
      repeat rewrite (IHn m) by len_tac. reflexivity.
    + destruct (DecodeRune (String c rest)) as [rr size] eqn:D.
      apply decode_size in D.
      repeat rewrite (IHn m) by len_tac. reflexivity.
Qed.

Lemma option_map_append_nil (x : option string) : option_map (append EmptyString) x = x.
Proof. destruct x; reflexivity. Qed.

Lemma option_map_append_app (a b : string) (x : option string) :
  option_map (append a) (option_map (append b) x) = option_map (append (a ++ b)) x.
Proof. destruct x; simpl; [rewrite str_app_assoc|]; reflexivity. Qed.

Lemma unquote_scan_loop (n : nat) (s : string) :
  String.length s <= n ->
  unquote_loop n s
  = option_map (append (str_take (unquote_scan n s) s))
               (unquote_loop n (str_drop (unquote_scan n s) s)).
Proof.
  revert s; induction n as [|n IHn]; intros s Hn.
  - reflexivity.
  - destruct s as [|c rest]; [reflexivity|].
    cbn [unquote_scan].
    destruct (Ascii.eqb c bs) eqn:E1;
      [simpl orb; cbv iota; simpl str_take; simpl str_drop; rewrite option_map_append_nil; reflexivity|].
    simpl orb.
    destruct (Ascii.eqb c quote || (byte c <? 0x20)%Z) eqn:E2;
      [simpl str_take; simpl str_drop; rewrite option_map_append_nil; reflexivity|].
    remember (unquote_loop (S n) (str_drop _ _)) as R eqn:HR.
    cbn [unquote_loop]. rewrite E1, E2. subst R.
    destruct (byte c <? RuneSelf)%Z eqn:E3.
    + cbn [str_take str_drop]. rewrite (IHn rest) by (simpl in Hn; lia).
      rewrite (unquote_loop_fuel (S n) n (str_drop _ rest)) by len_tac.
      destruct (unquote_loop n _); reflexivity.
    + destruct (DecodeRune (String c rest)) as [rr size] eqn:D.
      destruct ((rr =? RuneError)%Z && Nat.eqb size 1) eqn:E4.
      * simpl str_take. simpl str_drop. rewrite option_map_append_nil.
        cbn [unquote_loop]. rewrite E1, E2, E3, D. reflexivity.
      * assert (Hne : ~ (rr = RuneError /\ size = 1)).
        { intros [-> ->]. rewrite Z.eqb_refl in E4. discriminate. }
        apply Z.ltb_ge in E3.
        destruct (rune_valid c rest rr size E3 D Hne) as [Hsz [_ [Henc _]]].
        rewrite Henc. rewrite (IHn (str_drop size (String c rest))) by len_tac.
        rewrite str_take_add, str_drop_add, option_map_append_app.
        rewrite (unquote_loop_fuel (S n) n (str_drop _ (str_drop size _))) by len_tac.
        reflexivity.
Qed.

Lemma unquote_eq_loop (t : string) : unquote t = unquote_loop (String.length t) t.
Proof.
  unfold unquote.
  rewrite (unquote_scan_loop (String.length t) t) by lia.
  destruct (Nat.eqb_spec (unquote_scan (String.length t) t) (String.length t)) as [E|E].
  - rewrite E, str_take_all, str_drop_all.
    destruct (String.length t); simpl; rewrite str_app_nil_r; reflexivity.
  - reflexivity.
Qed.


(** *** Unquoting an encoded string. *)

Lemma unquote_escapeASCII (c : ascii) (m : nat) (Y : string) :
  (byte c < RuneSelf)%Z -> htmlSafe (byte c) = false ->
  unquote_loop (S m) (escapeASCII (byte c) ++ Y) = option_map (String c) (unquote_loop m Y).
Proof.
  destruct c as [[] [] [] [] [] [] [] []]; intros H1 H2;
    try (vm_compute in H1; discriminate); try (vm_compute in H2; discriminate);
    reflexivity.
Qed.

Lemma unquote_u2028 (r : Z) (m : nat) (Y : string) :
  ((r =? 0x2028) || (r =? 0x2029))%Z = true ->
  unquote_loop (S m) ("\u202" ++ (String (hex (Z.land r 0xF)) EmptyString ++ Y))
  = option_map (append (EncodeRune r)) (unquote_loop m Y).
Proof.
  intros H. apply orb_true_iff in H.
  destruct H as [H|H]; apply Z.eqb_eq in H; subst r; reflexivity.
Qed.

Lemma eqb_bs_false (c : ascii) : byte c <> 92%Z -> Ascii.eqb c bs = false.
Proof.
  intros H. destruct (Ascii.eqb_spec c bs) as [->|]; [vm_compute in H; congruence | reflexivity].
Qed.

Lemma eqb_quote_false (c : ascii) : byte c <> 34%Z -> Ascii.eqb c quote = false.
Proof.
  intros H. destruct (Ascii.eqb_spec c quote) as [->|]; [vm_compute in H; congruence | reflexivity].
Qed.

Lemma unquote_loop_plain (c : ascii) (m : nat) (Y : string) :
  (0x20 <= byte c < RuneSelf)%Z -> byte c <> 92%Z -> byte c <> 34%Z ->
  unquote_loop (S m) (String c Y) = option_map (String c) (unquote_loop m Y).
Proof.
  intros H1 H2 H3. cbn [unquote_loop].
  rewrite eqb_bs_false, eqb_quote_false by assumption.
  replace (byte c <? 32)%Z with false by (symmetry; apply Z.ltb_ge; lia).
  replace (byte c <? RuneSelf)%Z with true by (symmetry; apply Z.ltb_lt; lia).
  reflexivity.
Qed.

Lemma unquote_loop_high (c : ascii) (m : nat) (Y : string) :
  (RuneSelf <= byte c)%Z ->
  unquote_loop (S m) (String c Y)
  = let '(rr, size) := DecodeRune (String c Y) in
    option_map (append (EncodeRune rr)) (unquote_loop m (str_drop size (String c Y))).
Proof.
  intros H. unfold RuneSelf in H. cbn [unquote_loop].
  rewrite eqb_bs_false, eqb_quote_false by lia.
  replace (byte c <? 32)%Z with false by (symmetry; apply Z.ltb_ge; lia).
  replace (byte c <? RuneSelf)%Z with false by (symmetry; apply Z.ltb_ge; unfold RuneSelf; lia).
  reflexivity.
Qed.

Lemma encString_unquote (n : nat) (s : string) (k m : nat) :
  String.length s <= n -> String.length s <= k -> ValidString_loop k s = true ->
  String.length s <= m ->
  unquote_loop m (encString_loop n s) = Some s.
Proof.
  revert s k m; induction n as [|n IHn]; intros s k m Hn Hk Hv Hm.
  - destruct s; [destruct m; reflexivity | simpl in Hn; lia].
  - destruct s as [|c rest]; [destruct m; reflexivity|].
    destruct k as [|k]; [simpl in Hk; lia|].
    destruct m as [|m]; [simpl in Hm; lia|].
    simpl in Hn, Hk, Hm.
    cbn [encString_loop ValidString_loop] in *. cbv zeta.
    pose proof (byte_range c) as Hc.
    destruct (byte c <? RuneSelf)%Z eqn:E1.
    + apply Z.ltb_lt in E1.
      destruct (htmlSafe (byte c)) eqn:E2.
      * simpl append. unfold htmlSafe in E2.
        apply andb_true_iff in E2. destruct E2 as [E2 E3].
        apply Z.leb_le in E2. apply negb_true_iff in E3.
        repeat rewrite orb_false_iff in E3.
        destruct E3 as [[[[E3 E4] E5] E6] E7].
        apply Z.eqb_neq in E3. apply Z.eqb_neq in E4.
        rewrite unquote_loop_plain by (unfold RuneSelf in *; lia).
        rewrite (IHn rest k m) by first [exact Hv | lia]. reflexivity.
      * rewrite unquote_escapeASCII by assumption.
        rewrite (IHn rest k m) by first [exact Hv | lia]. reflexivity.
    + apply Z.ltb_ge in E1.
      destruct (DecodeRune (String c rest)) as [r size] eqn:D.
      destruct ((r =? RuneError)%Z && Nat.eqb size 1) eqn:E2; [discriminate|].
      assert (Hne : ~ (r = RuneError /\ size = 1)).
      { intros [-> ->]. rewrite Z.eqb_refl in E2. discriminate. }
      destruct (rune_valid c rest r size E1 D Hne) as [Hsz [Hhigh [Henc Hdec]]].
      assert (Hl : String.length (str_drop size (String c rest)) <= n)
        by (rewrite str_drop_length; cbn [String.length] in *; lia).
      destruct ((r =? 0x2028) || (r =? 0x2029))%Z eqn:E3.
      * rewrite unquote_u2028 by exact E3.
        rewrite (IHn _ k m) by first [exact Hv | try rewrite str_drop_length in *; cbn [String.length] in *; lia].
        simpl option_map. rewrite Henc, str_take_drop. reflexivity.
      * destruct size as [|size]; [lia|].
        cbn [str_take]. simpl append.
        rewrite unquote_loop_high by exact E1.
        pose proof (Hdec (encString_loop n (str_drop (S size) (String c rest)))) as Hd.
        cbn [str_take] in Hd. simpl append in Hd. rewrite Hd.
        assert (Hdrop : forall Y, str_drop size (str_take size rest ++ Y) = Y).
        { intros Y. rewrite <- (str_drop_app (str_take size rest) Y) at 2.
          rewrite str_take_length by (cbn [String.length] in *; lia). reflexivity. }
        cbn [str_drop]. rewrite Hdrop.
        rewrite (IHn (str_drop size rest) k m)
          by first [exact Hv | rewrite str_drop_length in *; cbn [String.length] in *; lia].
        simpl option_map. rewrite Henc. cbn [str_take]. simpl append.
        rewrite str_take_drop. reflexivity.
Qed.


(** *** The unquote/encString roundtrip. *)

Lemma escapeASCII_length (b : Z) : 1 <= String.length (escapeASCII b).
Proof.
  unfold escapeASCII.
  destruct ((b =? 0x5C) || (b =? 0x22))%Z; [simpl; lia|].
  destruct (b =? 0x0A)%Z; [simpl; lia|].
  destruct (b =? 0x0D)%Z; [simpl; lia|].
  destruct (b =? 0x09)%Z; simpl; lia.
Qed.

Lemma encString_loop_length (n : nat) (s : string) :
  String.length s <= n -> String.length s <= String.length (encString_loop n s).
Proof.
  revert s; induction n as [|n IHn]; intros s Hn.
  - destruct s; [reflexivity | simpl in Hn; lia].
  - destruct s as [|c rest]; [simpl; lia|].
    cbn [encString_loop]. cbv zeta.
    cbn [String.length] in Hn.
    destruct (byte c <? RuneSelf)%Z eqn:E1.
    + rewrite str_length_app. specialize (IHn rest ltac:(lia)).
      destruct (htmlSafe (byte c)); [simpl; lia|].
      pose proof (escapeASCII_length (byte c)). cbn [String.length]. lia.
    + apply Z.ltb_ge in E1.
      destruct (DecodeRune (String c rest)) as [r size] eqn:D.
      pose proof (decode_size _ _ _ _ D) as Hsz. cbn [String.length] in Hsz.
      destruct ((r =? RuneError)%Z && Nat.eqb size 1) eqn:E2.
      * rewrite str_length_app. specialize (IHn rest ltac:(lia)). simpl. lia.
      * assert (Hne : ~ (r = RuneError /\ size = 1)).
        { intros [-> ->]. rewrite Z.eqb_refl in E2. discriminate. }
        destruct (rune_valid c rest r size E1 D Hne) as [_ [_ [Henc _]]].
        specialize (IHn (str_drop size (String c rest))
                        ltac:(rewrite str_drop_length; cbn [String.length]; lia)).
        rewrite str_drop_length in IHn. cbn [String.length] in IHn.
        destruct ((r =? 0x2028) || (r =? 0x2029))%Z eqn:E3.
        -- assert (Hl3 : size = 3).
           { rewrite <- (str_take_length size (String c rest)) by (cbn [String.length]; lia).
             rewrite <- Henc. apply orb_true_iff in E3.
             destruct E3 as [E3|E3]; apply Z.eqb_eq in E3; subst r; reflexivity. }
           rewrite !str_length_app. cbn [String.length append]. lia.
        -- rewrite str_length_app, str_take_length by (cbn [String.length]; lia).
           cbn [String.length]. lia.
Qed.

Theorem unquote_encString (s : string) : ValidString s = true -> unquote (encString s) = Some s.
Proof.
  intros Hv. rewrite unquote_eq_loop. unfold encString.
  apply (encString_unquote (String.length s) s (String.length s)); try lia; try exact Hv.
  apply encString_loop_length. lia.
Qed.


(** *** The string scanner. *)

Lemma scan_transparent_nil : scan_transparent EmptyString.
Proof. intros T. simpl. destruct (scan_string T) as [[b r]|]; reflexivity. Qed.

Lemma scan_transparent_app (p q : string) :
  scan_transparent p -> scan_transparent q -> scan_transparent (p ++ q).
Proof.
  intros Hp Hq T. rewrite str_app_assoc, Hp, Hq.
  destruct (scan_string T) as [[b r]|]; simpl; [rewrite str_app_assoc|]; reflexivity.
Qed.

Lemma scan_transparent_high (t : string) : all_high t -> scan_transparent t.
Proof.
  induction t as [|c t IH]; intros H; [apply scan_transparent_nil|].
  destruct H as [Hc Ht]. intros T. simpl append. cbn [scan_string].
  rewrite eqb_quote_false, eqb_bs_false by lia.
  replace (byte c <? 32)%Z with false by (symmetry; apply Z.ltb_ge; lia).
  rewrite (IH Ht T). destruct (scan_string T) as [[b r]|]; reflexivity.
Qed.

Lemma scan_transparent_safe (c : ascii) :
  (byte c < RuneSelf)%Z -> htmlSafe (byte c) = true -> scan_transparent (String c EmptyString).
Proof.
  destruct c as [[] [] [] [] [] [] [] []]; intros H1 H2;
    try (vm_compute in H1; discriminate); try (vm_compute in H2; discriminate);
    intros T; simpl; destruct (scan_string T) as [[b r]|]; reflexivity.
Qed.

Lemma scan_transparent_escape (c : ascii) :
  (byte c < RuneSelf)%Z -> htmlSafe (byte c) = false -> scan_transparent (escapeASCII (byte c)).
Proof.
  destruct c as [[] [] [] [] [] [] [] []]; intros H1 H2;
    try (vm_compute in H1; discriminate); try (vm_compute in H2; discriminate);
    intros T; simpl; destruct (scan_string T) as [[b r]|]; reflexivity.
Qed.

Lemma scan_transparent_fffd : scan_transparent "\ufffd".
Proof. intros T. simpl. destruct (scan_string T) as [[b r]|]; reflexivity. Qed.

Lemma scan_transparent_2028 (r : Z) :
  ((r =? 0x2028) || (r =? 0x2029))%Z = true ->
  scan_transparent ("\u202" ++ String (hex (Z.land r 0xF)) EmptyString).
Proof.
  intros H. apply orb_true_iff in H.
  destruct H as [H|H]; apply Z.eqb_eq in H; subst r;
    intros T; simpl; destruct (scan_string T) as [[b r]|]; reflexivity.
Qed.

Lemma scan_transparent_encString_loop (n : nat) (s : string) :
  scan_transparent (encString_loop n s).
Proof.
  revert s; induction n as [|n IHn]; intros s; [apply scan_transparent_nil|].
  destruct s as [|c rest]; [apply scan_transparent_nil|].
  cbn [encString_loop]. cbv zeta.
  destruct (byte c <? RuneSelf)%Z eqn:E1.
  - apply Z.ltb_lt in E1. apply scan_transparent_app; [|apply IHn].
    destruct (htmlSafe (byte c)) eqn:E2.
    + apply scan_transparent_safe; assumption.
    + apply scan_transparent_escape; assumption.
  - apply Z.ltb_ge in E1.
    destruct (DecodeRune (String c rest)) as [r size] eqn:D.
    destruct ((r =? RuneError)%Z && Nat.eqb size 1) eqn:E2.
    + apply scan_transparent_app; [apply scan_transparent_fffd | apply IHn].
    + assert (Hne : ~ (r = RuneError /\ size = 1)).
      { intros [-> ->]. rewrite Z.eqb_refl in E2. discriminate. }
      destruct (rune_valid c rest r size E1 D Hne) as [_ [Hhigh _]].
      destruct ((r =? 0x2028) || (r =? 0x2029))%Z eqn:E3.
      * rewrite <- str_app_assoc. apply scan_transparent_app; [|apply IHn].
        apply scan_transparent_2028. exact E3.
      * apply scan_transparent_app; [|apply IHn].
        apply scan_transparent_high. exact Hhigh.
Qed.

Lemma scan_string_quoted (s Y : string) :
  scan_string (encString s ++ String quote Y) = Some (encString s, Y).
Proof.
  unfold encString. rewrite scan_transparent_encString_loop.
  simpl. rewrite str_app_nil_r. reflexivity.
Qed.


(** *** Parsing the serialized Event. *)

Lemma parse_value_S (g : nat) (s : string) :
  parse_value (S g) s =
    match skip_ws s with
    | EmptyString => None
    | String c rest =>
      if Ascii.eqb c "{"%char then
        match skip_ws rest with
        | String c' rest' =>
          if Ascii.eqb c' "}"%char then Some (JObject [], rest')
          else parse_members g (skip_ws rest) []
        | EmptyString => None
        end
      else if Ascii.eqb c "["%char then
        match skip_ws rest with
        | String c' rest' =>
          if Ascii.eqb c' "]"%char then Some (JArray [], rest')
          else parse_elems g rest []
        | EmptyString => None
        end
      else if Ascii.eqb c quote then
        option_map (fun '(b, r) => (JString b, r)) (scan_string rest)
      else if Ascii.eqb c "t"%char then
        option_map (fun r => (JBool true, r)) (scan_literal "true" (String c rest))
      else if Ascii.eqb c "f"%char then
        option_map (fun r => (JBool false, r)) (scan_literal "false" (String c rest))
      else if Ascii.eqb c "n"%char then
        option_map (fun r => (JNull, r)) (scan_literal "null" (String c rest))
      else if Ascii.eqb c "-"%char || isDigit c then
        option_map (fun '(n, r) => (JNumber n, r)) (scan_number (String c rest))
      else None
    end.
Proof. reflexivity. Qed.

Lemma parse_elems_S (g : nat) (s : string) (acc : list JValue) :
  parse_elems (S g) s acc =
    match parse_value g s with
    | None => None
    | Some (v, r) =>
      match skip_ws r with
      | String c r' =>
        if Ascii.eqb c ","%char then parse_elems g r' (app acc [v])
        else if Ascii.eqb c "]"%char then Some (JArray (app acc [v]), r')
        else None
      | EmptyString => None
      end
    end.
Proof. reflexivity. Qed.

Lemma parse_members_S (g : nat) (s : string) (acc : list (string * JValue)) :
  parse_members (S g) s acc =
    match s with
    | String q rest =>
      if Ascii.eqb q quote then
        match scan_string rest with
        | None => None
        | Some (k, r1) =>
          match skip_ws r1 with
          | String c r2 =>
            if Ascii.eqb c ":"%char then
              match parse_value g r2 with
              | None => None
              | Some (v, r3) =>
                match skip_ws r3 with
                | String c' r4 =>
                  if Ascii.eqb c' ","%char then parse_members g (skip_ws r4) (app acc [(k, v)])
                  else if Ascii.eqb c' "}"%char then Some (JObject (app acc [(k, v)]), r4)
                  else None
                | EmptyString => None
                end
              end
            else None
          | EmptyString => None
          end
        end
      else None
    | EmptyString => None
    end.
Proof. reflexivity. Qed.

Lemma skip_ws_nonspace (c : ascii) (T : string) :
  isSpace c = false -> skip_ws (String c T) = String c T.
Proof. intros H. simpl. rewrite H. reflexivity. Qed.

Lemma quoteString_app (s Y : string) :
  quoteString s ++ Y = String quote (encString s ++ String quote Y).
Proof. unfold quoteString. simpl. rewrite str_app_assoc. reflexivity. Qed.

Lemma parse_value_string (g : nat) (s Y : string) :
  parse_value (S g) (quoteString s ++ Y) = Some (JString (encString s), Y).
Proof.
  rewrite quoteString_app, parse_value_S. simpl skip_ws. cbv iota.
  change (Ascii.eqb quote "{"%char) with false. change (Ascii.eqb quote "["%char) with false.
  change (Ascii.eqb quote quote) with true. cbv iota.
  rewrite scan_string_quoted. reflexivity.
Qed.

Lemma concat_quoted_head (x : string) (l : list string) (Z : string) :
  exists W, String.concat "," (map quoteString (x :: l)) ++ Z = String quote W.
Proof. destruct l; simpl; eexists; reflexivity. Qed.

Lemma concat_cons2 (sep x y : string) (l : list string) :
  String.concat sep (x :: y :: l) = x ++ sep ++ String.concat sep (y :: l).
Proof. reflexivity. Qed.

Lemma quoteString_length (s : string) : 2 <= String.length (quoteString s).
Proof. unfold quoteString. simpl. rewrite str_length_app. simpl. lia. Qed.

Lemma parse_elems_strings (l : list string) (x : string) (g : nat) (acc : list JValue) (Y : string) :
  String.length (String.concat "," (map quoteString (x :: l))) < g ->
  parse_elems g (String.concat "," (map quoteString (x :: l)) ++ "]" ++ Y) acc
  = Some (JArray (acc ++ map (fun x => JString (encString x)) (x :: l)), Y).
Proof.
  revert x g acc; induction l as [|y l IH]; intros x g acc Hg.
  - simpl map in *. simpl String.concat in *.
    pose proof (quoteString_length x).
    destruct g as [|[|g]]; [lia|lia|].
    rewrite parse_elems_S, parse_value_string. reflexivity.
  - simpl map in Hg |- *. rewrite concat_cons2 in *.
    rewrite !str_length_app in Hg. pose proof (quoteString_length x).
    destruct g as [|[|g]]; [lia|lia|].
    rewrite parse_elems_S, !str_app_assoc, parse_value_string.
    change ("," ++ ?T) with (String ","%char T).
    rewrite skip_ws_nonspace by reflexivity. cbv iota.
    change (Ascii.eqb ","%char ","%char) with true. cbv iota.
    pose proof (IH y (S g) (app acc [JString (encString x)])) as IH'.
    simpl map in IH'. rewrite IH' by (simpl in Hg |- *; lia).
    rewrite <- app_assoc. reflexivity.
Qed.

Lemma parse_value_field (fv : FieldValue) (g : nat) (Y : string) :
  String.length (encodeValue fv) <= g ->
  parse_value (S g) (encodeValue fv ++ Y) = Some (jsonOf fv, Y).
Proof.
  intros Hg. destruct fv as [s | [l|]].
  - apply parse_value_string.
  - destruct l as [|x l].
    + reflexivity.
    + cbn [encodeValue] in Hg |- *.
      change ("[" ++ ?T) with (String "["%char T) in Hg |- *.
      change (String "["%char ?T ++ ?U) with (String "["%char (T ++ U)).
      rewrite parse_value_S. rewrite skip_ws_nonspace by reflexivity. cbv iota.
      change (Ascii.eqb "["%char "{"%char) with false.
      change (Ascii.eqb "["%char "["%char) with true. cbv iota.
      destruct (concat_quoted_head x l ("]" ++ Y)) as [W HW].
      rewrite !str_app_assoc, HW. rewrite skip_ws_nonspace by reflexivity. cbv iota.
      change (Ascii.eqb quote "]"%char) with false. cbv iota.
      rewrite <- HW.
      cbn [String.length] in Hg. rewrite !str_length_app in Hg.
      destruct g as [|g]; [lia|].
      rewrite parse_elems_strings by (cbn [String.length] in Hg; lia). reflexivity.
  - destruct Y; reflexivity.
Qed.

Lemma memberText_app (ev : Event) (f : Field) (Z : string) :
  memberText ev f ++ Z
  = String quote (encString (fieldName f)
                  ++ String quote (String ":"%char (encodeValue (getField f ev) ++ Z))).
Proof. unfold memberText. rewrite !str_app_assoc, quoteString_app. reflexivity. Qed.

Lemma concat_member_head (ev : Event) (f : Field) (fs : list Field) (Z : string) :
  exists W, String.concat "," (map (memberText ev) (f :: fs)) ++ Z = String quote W.
Proof.
  destruct fs as [|f' fs].
  - cbn [map String.concat]. rewrite memberText_app. eexists; reflexivity.
  - rewrite map_cons, map_cons, concat_cons2, !str_app_assoc, memberText_app.
    eexists; reflexivity.
Qed.

Lemma memberText_length (ev : Event) (f : Field) :
  String.length (encodeValue (getField f ev)) + 2 <= String.length (memberText ev f).
Proof.
  unfold memberText. rewrite !str_length_app. pose proof (quoteString_length (fieldName f)).
  simpl. lia.
Qed.

Lemma parse_members_fields (ev : Event) (fs : list Field) (f : Field) (g : nat)
    (acc : list (string * JValue)) (Y : string) :
  String.length (String.concat "," (map (memberText ev) (f :: fs))) < g ->
  parse_members g (String.concat "," (map (memberText ev) (f :: fs)) ++ "}" ++ Y) acc
  = Some (JObject (acc ++ map (memberJSON ev) (f :: fs)), Y).
Proof.
  revert f g acc; induction fs as [|f' fs IH]; intros f g acc Hg.
  - cbn [map String.concat] in *.
    pose proof (memberText_length ev f).
    destruct g as [|[|g]]; [lia|lia|].
    rewrite parse_members_S, memberText_app.
    change (Ascii.eqb quote quote) with true. cbv iota.
    rewrite scan_string_quoted. cbv iota.
    rewrite skip_ws_nonspace by reflexivity. cbv iota.
    change (Ascii.eqb ":"%char ":"%char) with true. cbv iota.
    rewrite parse_value_field by lia. cbv iota.
    change ("}" ++ Y) with (String "}"%char Y).
    rewrite skip_ws_nonspace by reflexivity. cbv iota.
    change (Ascii.eqb "}"%char ","%char) with false.
    change (Ascii.eqb "}"%char "}"%char) with true. cbv iota.
    reflexivity.
  - cbn [map] in Hg |- *. rewrite concat_cons2 in Hg |- *.
    rewrite !str_length_app in Hg. pose proof (memberText_length ev f).
    destruct g as [|[|g]]; [lia|lia|].
    rewrite !str_app_assoc.
    rewrite parse_members_S, memberText_app.
    change (Ascii.eqb quote quote) with true. cbv iota.
    rewrite scan_string_quoted. cbv iota.
    rewrite skip_ws_nonspace by reflexivity. cbv iota.
    change (Ascii.eqb ":"%char ":"%char) with true. cbv iota.
    rewrite parse_value_field by (cbn [String.length] in Hg; lia). cbv iota.
    change ("," ++ ?T) with (String ","%char T).
    rewrite skip_ws_nonspace by reflexivity. cbv iota.
    change (Ascii.eqb ","%char ","%char) with true. cbv iota.
    destruct (concat_member_head ev f' fs ("}" ++ Y)) as [W HW]. cbn [map] in HW.
    rewrite HW, skip_ws_nonspace by reflexivity. rewrite <- HW.
    pose proof (IH f' (S g) (app acc [(encString (fieldName f), jsonOf (getField f ev))])) as IH'.
    cbn [map] in IH'.
    rewrite IH' by (cbn [String.length] in Hg; lia).
    rewrite <- app_assoc. reflexivity.
Qed.

Lemma marshal_members (ev : Event) :
  map (fun '(k, v) => quoteString k ++ ":" ++ v) (marshalFields ev)
  = map (memberText ev) (marshalList ev).
Proof. unfold marshalFields. rewrite map_map. reflexivity. Qed.

Lemma marshalList_head (ev : Event) : exists fs, marshalList ev = F_UUID :: fs.
Proof. eexists. reflexivity. Qed.

Lemma checkValid_Marshal (ev : Event) :
  checkValid (Marshal ev) = Some (JObject (map (memberJSON ev) (marshalList ev))).
Proof.
  unfold checkValid, Marshal. rewrite marshal_members.
  destruct (marshalList_head ev) as [fs Hfs]. rewrite Hfs.
  change ("{" ++ ?T) with (String "{"%char T).
  rewrite parse_value_S, skip_ws_nonspace by reflexivity. cbv iota.
  change (Ascii.eqb "{"%char "{"%char) with true. cbv iota.
  destruct (concat_member_head ev F_UUID fs "}") as [W HW].
  rewrite HW, skip_ws_nonspace by reflexivity. cbv iota.
  change (Ascii.eqb quote "}"%char) with false. cbv iota.
  rewrite <- HW.
  rewrite <- (str_app_nil_r "}").
  rewrite parse_members_fields by (cbn [String.length]; rewrite str_length_app; simpl; lia).
  reflexivity.
Qed.


(** *** Decoding the serialized Event. *)

Lemma fieldName_roundtrip (f : Field) :
  encString (fieldName f) = fieldName f /\ unquote (fieldName f) = Some (fieldName f)
  /\ findField (fieldName f) = Some f.
Proof. destruct f; vm_compute; repeat split. Qed.

Lemma storeElems_ok (l old : list string) :
  forallb ValidString l = true ->
  storeElems old (map (fun x => JString (encString x)) l) = Some (l, None).
Proof.
  revert old; induction l as [|x l IH]; intros old H; [reflexivity|].
  simpl in H. apply andb_true_iff in H. destruct H as [Hx Hl].
  cbn [map storeElems storeString]. rewrite unquote_encString by exact Hx.
  cbn [option_map]. rewrite IH by exact Hl. reflexivity.
Qed.

Lemma storeField_ok (f : Field) (ev e0 : Event) :
  fieldValidUTF8 (getField f e0) = true ->
  storeField f ev (jsonOf (getField f e0)) = Some (setField f (getField f e0) ev, None).
Proof.
  intros H.
  destruct f; cbn [getField fieldValidUTF8 jsonOf] in *; unfold storeField; cbn [getField];
    try (cbn [storeString]; rewrite unquote_encString by exact H; reflexivity).
  - destruct (RoutedNetworks e0) as [l|]; [|reflexivity].
    cbn [storeSlice]. rewrite storeElems_ok by exact H. reflexivity.
  - destruct (RoutedNetworkAWSIDs e0) as [l|]; [|reflexivity].
    cbn [storeSlice]. rewrite storeElems_ok by exact H. reflexivity.
Qed.

Lemma saveError_None (saved : option UnmarshalError) : saveError saved None = saved.
Proof. destruct saved; reflexivity. Qed.

Lemma decodeMembers_fields (e0 : Event) (fs : list Field) (ev : Event)
    (saved : option UnmarshalError) :
  Forall (fun f => fieldValidUTF8 (getField f e0) = true) fs ->
  decodeMembers (map (memberJSON e0) fs) ev saved
  = (fold_left (fun ev f => setField f (getField f e0) ev) fs ev, saved).
Proof.
  revert ev; induction fs as [|f fs IH]; intros ev H; [reflexivity|].
  inversion H as [|? ? Hf Hfs]; subst.
  cbn [map decodeMembers fold_left]. unfold memberJSON at 1.
  destruct (fieldName_roundtrip f) as [He [Hu Hk]].
  rewrite He, Hu. cbv iota. rewrite Hk. cbv iota.
  rewrite storeField_ok by exact Hf. cbv iota.
  rewrite saveError_None. apply IH. exact Hfs.
Qed.

Theorem Unmarshal_Marshal (e0 ev : Event) :
  eventValidUTF8 e0 = true ->
  (ErrorMessage e0 = EmptyString -> ErrorMessage ev = EmptyString) ->
  Unmarshal (Marshal e0) ev = (e0, None).
Proof.
  intros Hv Herr. unfold Unmarshal. rewrite checkValid_Marshal. cbv iota.
  rewrite decodeMembers_fields.
  2:{ apply Forall_forall. intros f Hf. unfold marshalList in Hf.
      apply filter_In in Hf. destruct Hf as [Hf _].
      unfold eventValidUTF8 in Hv. rewrite forallb_forall in Hv. apply Hv. exact Hf. }
  f_equal.
  destruct e0 as [u0 b0 p0 v0 r0 k0 t0 pn0 pa0 rn0 ra0 g0 ai0 ap0 ig0 em0].
  destruct ev as [u1 b1 p1 v1 r1 k1 t1 pn1 pa1 rn1 ra1 g1 ai1 ap1 ig1 em1].
  unfold marshalList; simpl in Herr.
  destruct (String.eqb_spec em0 EmptyString) as [E|E].
  - subst em0. specialize (Herr eq_refl). subst em1. reflexivity.
  - apply String.eqb_neq in E. simpl. rewrite E. reflexivity.
Qed.


(* ------------------------------------------------------------------ *)
(** ** Process, Error and Complete. *)

Open Scope list_scope.


Lemma setField_ErrorMessage (f : Field) (v : FieldValue) (ev : Event) :
  f <> F_ErrorMessage -> ErrorMessage (setField f v ev) = ErrorMessage ev.
Proof. intros Hf; destruct f, v; try reflexivity; congruence. Qed.

Lemma storeField_ErrorMessage (f : Field) (ev ev' : Event) (v : JValue) e :
  f <> F_ErrorMessage -> storeField f ev v = Some (ev', e) -> ErrorMessage ev' = ErrorMessage ev.
Proof.
  intros Hf H. unfold storeField in H.
  destruct (getField f ev) as [cur|cur].
  - destruct (storeString cur v) as [[s e1]|]; cbn in H; [|discriminate].
    injection H as <- _. apply setField_ErrorMessage; exact Hf.
  - destruct (storeSlice cur v) as [[l e1]|]; cbn in H; [|discriminate].
    injection H as <- _. apply setField_ErrorMessage; exact Hf.
Qed.

Lemma decodeMembers_ErrorMessage (ms : list (string * JValue)) (ev : Event) saved :
  Forall notErrorKey ms -> ErrorMessage (fst (decodeMembers ms ev saved)) = ErrorMessage ev.
Proof.
  revert ev saved; induction ms as [|[k v] ms IH]; intros ev saved H; [reflexivity|].
  inversion H as [|? ? Hk Hms]; subst. unfold notErrorKey in Hk; cbn [fst] in Hk.
  cbn [decodeMembers].
  destruct (unquote k) as [key|] eqn:Eu; [|reflexivity].
  destruct (findField key) as [f|] eqn:Ef; [|apply IH; exact Hms].
  destruct (storeField f ev v) as [[ev' e]|] eqn:Es; [|reflexivity].
  rewrite (IH ev' _ Hms).
  apply (storeField_ErrorMessage f ev ev' v e); [|exact Es].
  intros ->. apply (Hk key eq_refl). exact Ef.
Qed.

Lemma Unmarshal_ErrorMessage (data : string) (ev : Event) :
  (forall ms, checkValid data = Some (JObject ms) -> Forall notErrorKey ms) ->
  ErrorMessage (fst (Unmarshal data ev)) = ErrorMessage ev.
Proof.
  intros H. unfold Unmarshal.
  destruct (checkValid data) as [v|] eqn:E; [|reflexivity].
  destruct v; try reflexivity.
  apply decodeMembers_ErrorMessage, H; reflexivity.
Qed.

Lemma Complete_jsonMarshal (ev : Event) (bus : list Msg) :
  Complete jsonMarshal (ev, bus) = ((ev, bus ++ [(subjectDone, Marshal ev)]), Some tt).
Proof. reflexivity. Qed.

Lemma Error_jsonMarshal (msg : string) (ev : Event) (bus : list Msg) :
  Error jsonMarshal msg (ev, bus)
  = ((setField F_ErrorMessage (FString msg) ev,
      bus ++ [(subjectError, Marshal (setField F_ErrorMessage (FString msg) ev))]), Some tt).
Proof. reflexivity. Qed.

(** C5: [json.Marshal] of an Event never fails: its fields are strings
    and string slices, and invalid UTF-8 is written as the escape of
    U+FFFD rather than reported, so [Complete]'s fallback to [Error] is
    never taken.  Hence [Error] publishes exactly one message, the
    serialized Event, to the error subject; [Complete] exactly one, the
    serialized Event, to the done subject; and [Process] publishes the
    raw data to the error subject exactly when [Unmarshal] returns an
    error, and nothing otherwise. *)
Theorem terminal_ops_publish (data msg : string) (ev : Event) (bus : list Msg) :
  (forall e, jsonMarshal ev <> inr e) /\
  Error jsonMarshal msg (ev, bus)
    = ((setField F_ErrorMessage (FString msg) ev,
        bus ++ [(subjectError, Marshal (setField F_ErrorMessage (FString msg) ev))]), Some tt) /\
  Complete jsonMarshal (ev, bus) = ((ev, bus ++ [(subjectDone, Marshal ev)]), Some tt) /\
  snd (fst (Process data (ev, bus)))
    = match snd (Unmarshal data ev) with
      | Some _ => bus ++ [(subjectError, data)]
      | None => bus
      end.
Proof.
  split; [intros e H; discriminate H|].
  split; [apply Error_jsonMarshal|]. split; [apply Complete_jsonMarshal|].
  unfold Process. destruct (Unmarshal data ev) as [ev' [e|]]; reflexivity.
Qed.

(** C6 (counterexample): a payload whose [error] member is a string and
    whose [_uuid] member is a number fails to decode, yet [Process] has
    already set ErrorMessage to the payload's [error] text. *)
Theorem Process_type_error_sets_ErrorMessage :
  Process (sq "{'error':'boom','_uuid':1}") (zeroEvent, [])
  = ((setField F_ErrorMessage (FString "boom") zeroEvent,
      [(subjectError, sq "{'error':'boom','_uuid':1}")]),
     Some (Some (UnmarshalTypeError "number"))).
Proof. vm_compute. reflexivity. Qed.

(** C6: [Process] leaves the Event as [Unmarshal] leaves it, publishes
    the raw data unchanged to the error subject exactly when [Unmarshal]
    returns an error (and nothing otherwise), and returns that error.  On
    a syntax error the Event is unchanged.  ErrorMessage is unchanged
    whenever no member of the top-level object selects the [error] field;
    a payload that has such a member may set it even when decoding fails
    on a later member. *)
Theorem Process_contract (data : string) (ev : Event) (bus : list Msg) :
  Process data (ev, bus)
    = ((fst (Unmarshal data ev),
        match snd (Unmarshal data ev) with
        | Some _ => bus ++ [(subjectError, data)]
        | None => bus
        end),
       Some (snd (Unmarshal data ev))) /\
  (checkValid data = None -> Process data (ev, bus) = ((ev, bus ++ [(subjectError, data)]), Some (Some SyntaxError))) /\
  ((forall ms, checkValid data = Some (JObject ms) -> Forall notErrorKey ms) ->
   ErrorMessage (fst (fst (Process data (ev, bus)))) = ErrorMessage ev).
Proof.
  assert (HP : Process data (ev, bus)
    = ((fst (Unmarshal data ev),
        match snd (Unmarshal data ev) with
        | Some _ => bus ++ [(subjectError, data)]
        | None => bus
        end),
       Some (snd (Unmarshal data ev)))).
  { unfold Process. destruct (Unmarshal data ev) as [ev' [e|]]; reflexivity. }
  split; [exact HP|]. split.
  - intros Hc. rewrite HP. unfold Unmarshal. rewrite Hc. reflexivity.
  - intros H. rewrite HP. apply Unmarshal_ErrorMessage. exact H.
Qed.

(** C7 (counterexample): for the canonical serialization of an Event
    whose UUID is the single byte 0xFF, [Process] succeeds and [Complete]
    publishes the serialization of the decoded Event, but those bytes
    differ from the input: the serialization writes the byte as the
    escape of U+FFFD, [Process] decodes it to U+FFFD (the bytes EF BF
    BD), and [Complete] writes those three bytes as they are. *)
Theorem Process_Complete_not_identical :
  let p := Process (Marshal invalidUTF8Event) (zeroEvent, []) in
  snd p = Some None /\
  UUID (fst (fst p))
    = String (ascii_of_nat 239) (String (ascii_of_nat 191) (String (ascii_of_nat 189) EmptyString)) /\
  Complete jsonMarshal (fst p) = ((fst (fst p), [(subjectDone, Marshal (fst (fst p)))]), Some tt) /\
  Marshal (fst (fst p)) <> Marshal invalidUTF8Event.
Proof.
  vm_compute. split; [reflexivity|]. split; [reflexivity|]. split; [reflexivity|].
  discriminate.
Qed.

(** C7: for every Event, [Complete] publishes the Event's serialization
    to the done subject and nothing to the error subject.  For an Event
    whose strings are all valid UTF-8, [Process] of its serialization
    succeeds, publishes nothing and yields that Event again (into an
    Event whose ErrorMessage is empty when the serialized one's is), so
    [Process] followed by [Complete] republishes the input bytes. *)
Theorem Complete_republishes_canonical :
  (forall (ev : Event) (bus : list Msg),
     Complete jsonMarshal (ev, bus) = ((ev, bus ++ [(subjectDone, Marshal ev)]), Some tt)) /\
  (forall (e0 ev : Event) (bus : list Msg),
     eventValidUTF8 e0 = true ->
     (ErrorMessage e0 = EmptyString -> ErrorMessage ev = EmptyString) ->
     Process (Marshal e0) (ev, bus) = ((e0, bus), Some None) /\
     Complete jsonMarshal (fst (fst (Process (Marshal e0) (ev, bus))), bus)
       = ((e0, bus ++ [(subjectDone, Marshal e0)]), Some tt)).
Proof.
  split; [apply Complete_jsonMarshal|].
  intros e0 ev bus Hv He.
  assert (HP : Process (Marshal e0) (ev, bus) = ((e0, bus), Some None)).
  { unfold Process. rewrite (Unmarshal_Marshal e0 ev Hv He). reflexivity. }
  split; [exact HP|]. rewrite HP. apply Complete_jsonMarshal.
Qed.

(** The C7 theorem applied to [testEvent] decoded into a zero Event. *)
Lemma Complete_republishes_canonical_witness :
  eventValidUTF8 testEvent = true /\
  (ErrorMessage testEvent = EmptyString -> ErrorMessage zeroEvent = EmptyString) /\
  Process (Marshal testEvent) (zeroEvent, []) = ((testEvent, []), Some None) /\
  Complete jsonMarshal (fst (fst (Process (Marshal testEvent) (zeroEvent, []))), [])
    = ((testEvent, [(subjectDone, Marshal testEvent)]), Some tt).
Proof.
  assert (Hv : eventValidUTF8 testEvent = true) by (vm_compute; reflexivity).
  assert (He : ErrorMessage testEvent = EmptyString -> ErrorMessage zeroEvent = EmptyString)
    by (intros _; reflexivity).
  split; [exact Hv|]. split; [exact He|].
  exact (proj2 Complete_republishes_canonical testEvent zeroEvent [] Hv He).
Defined.

(** C8 (counterexample): [Error] with an empty error text publishes a
    serialization with no [error] member, since the field is
    [omitempty]. *)
Theorem Error_empty_message_omitted :
  let '((ev', bus'), r) := Error jsonMarshal EmptyString (testEvent, []) in
  bus' = [(subjectError, Marshal ev')] /\ r = Some tt /\
  ~ In "error" (map fst (marshalFields ev')).
Proof. vm_compute. split; [reflexivity|]. split; [reflexivity|]. intuition discriminate. Qed.

(** C8: [Error msg] sets ErrorMessage to [msg] and, with [json.Marshal],
    publishes the serialized Event to the error subject and nothing to
    the done subject.  The payload's [error] member is [msg] quoted when
    [msg] is not empty, and absent when it is; the quoted text decodes
    back to [msg] when [msg] is valid UTF-8, and the whole payload decodes
    back to the Event when all its strings are.  When serializing fails,
    [Error] panics and publishes nothing. *)
Theorem Error_contract (msg : string) (ev : Event) (bus : list Msg) :
  let ev' := setField F_ErrorMessage (FString msg) ev in
  Error jsonMarshal msg (ev, bus) = ((ev', bus ++ [(subjectError, Marshal ev')]), Some tt) /\
  ErrorMessage ev' = msg /\
  (msg <> EmptyString -> In ("error", quoteString msg) (marshalFields ev')) /\
  (msg = EmptyString -> ~ In "error" (map fst (marshalFields ev'))) /\
  (ValidString msg = true -> unquote (encString msg) = Some msg) /\
  (eventValidUTF8 ev' = true -> Unmarshal (Marshal ev') zeroEvent = (ev', None)) /\
  (forall (marshal : Event -> string + string) (e : string),
     marshal ev' = inr e -> Error marshal msg (ev, bus) = ((ev', bus), None)).
Proof.
  cbv zeta. split; [apply Error_jsonMarshal|]. split; [reflexivity|]. split.
  - intros Hne. unfold marshalFields. apply in_map_iff. exists F_ErrorMessage. split.
    + reflexivity.
    + apply filter_In. split; [simpl; tauto|].
      cbn [getField fieldOmitEmpty isEmptyValue setField ErrorMessage andb negb].
      apply String.eqb_neq in Hne. rewrite Hne. reflexivity.
  - split.
    + intros ->. destruct ev. vm_compute. intuition discriminate.
    + split; [apply unquote_encString|]. split.
      * intros Hv. apply Unmarshal_Marshal; [exact Hv|]. intros _; reflexivity.
      * intros marshal e He. unfold Error. rewrite He. reflexivity.
Qed.

(* ------------------------------------------------------------------ *)
(** ** The message handler and further properties of the Event code. *)

Lemma eventHandler_decoded (S E : Type) newEC2 errText marshal data p bus n :
  Unmarshal data zeroEvent = (n, None) ->
  eventHandler S E newEC2 errText marshal data (p, bus) =
    match Validate n with
    | Some m =>
      let '((_, bus2), r) := Error marshal m (n, bus) in ((p, bus2), r)
    | None =>
      match updateNat S E (newEC2 (DatacenterRegion n) (DatacenterAccessKey n) (DatacenterAccessToken n)) n p with
      | (p', None) => ((p', bus), None)
      | (p', Some (Some e)) =>
        let '((_, bus2), r) := Error marshal (errText e) (n, bus) in ((p', bus2), r)
      | (p', Some None) =>
        let '((_, bus2), r) := Complete marshal (n, bus) in ((p', bus2), r)
      end
    end.
Proof. intros HU. unfold eventHandler, Process. rewrite HU. reflexivity. Qed.

(** [eventHandler] on a payload [json.Unmarshal] rejects: the raw
    payload is published to the error subject, nothing else is published
    and no EC2 call is made. *)
Theorem eventHandler_undecodable (S E : Type) newEC2 errText marshal
    (data : string) (p : S * trace E) (bus : list Msg) (n : Event) (e : UnmarshalError) :
  Unmarshal data zeroEvent = (n, Some e) ->
  eventHandler S E newEC2 errText marshal data (p, bus) = ((p, bus ++ [(subjectError, data)]), Some tt).
Proof. intros HU. unfold eventHandler, Process. rewrite HU. reflexivity. Qed.

(** [eventHandler_undecodable] at a concrete run. *)
Lemma eventHandler_undecodable_witness :
  Unmarshal "{" zeroEvent = (zeroEvent, Some SyntaxError) /\
  eventHandler MemEC2 string memClient (fun e => e) jsonMarshal "{" ((mkMemEC2 [] 0, []), [])
    = (((mkMemEC2 [] 0, []), [(subjectError, "{")]), Some tt).
Proof.
  assert (H : Unmarshal "{" zeroEvent = (zeroEvent, Some SyntaxError)) by (vm_compute; reflexivity).
  split; [exact H|].
  exact (eventHandler_undecodable MemEC2 string memClient (fun e => e) jsonMarshal "{"
           (mkMemEC2 [] 0, []) [] zeroEvent SyntaxError H).
Defined.

(** [eventHandler] on a payload that decodes to an Event [Validate]
    rejects: no EC2 call is made, and the decoded Event, with its error
    message set to the validation error, is the one message published, on
    the error subject. *)
Theorem eventHandler_invalid (S E : Type) newEC2 errText
    (data : string) (p : S * trace E) (bus : list Msg) (n : Event) (m : string) :
  Unmarshal data zeroEvent = (n, None) ->
  Validate n = Some m ->
  eventHandler S E newEC2 errText jsonMarshal data (p, bus)
    = ((p, bus ++ [(subjectError, Marshal (setField F_ErrorMessage (FString m) n))]), Some tt).
Proof.
  intros HU HV. rewrite (eventHandler_decoded S E newEC2 errText jsonMarshal data p bus n HU), HV.
  reflexivity.
Qed.

(** [eventHandler_invalid] at a concrete run. *)
Lemma eventHandler_invalid_witness :
  Unmarshal "{}" zeroEvent = (zeroEvent, None) /\
  Validate zeroEvent = Some ErrDatacenterIDInvalid /\
  eventHandler MemEC2 string memClient (fun e => e) jsonMarshal "{}" ((mkMemEC2 [] 0, []), [])
    = (((mkMemEC2 [] 0, []),
       [(subjectError, Marshal (setField F_ErrorMessage (FString ErrDatacenterIDInvalid) zeroEvent))]),
       Some tt).
Proof.
  assert (H1 : Unmarshal "{}" zeroEvent = (zeroEvent, None)) by (vm_compute; reflexivity).
  assert (H2 : Validate zeroEvent = Some ErrDatacenterIDInvalid) by reflexivity.
  split; [exact H1|]. split; [exact H2|].
  exact (eventHandler_invalid MemEC2 string memClient (fun e => e) "{}"
           (mkMemEC2 [] 0, []) [] zeroEvent ErrDatacenterIDInvalid H1 H2).
Defined.

Lemma updateNatLoop_configured_lookups (S E : Type) (svc : EC2 S E) (vpc gw : string)
    (ids : list string) (s : S) :
  (forall x, In x ids -> exists t ts, DescribeRouteTables svc x s = (s, inr (t :: ts)) /\
                                  routeTableIsConfigured t gw = Some true) ->
  forall tr, updateNatLoop S E svc vpc gw ids (s, tr)
             = ((s, tr ++ map (fun x => (CDescribeRouteTables x, None)) ids), Some None).
Proof.
  induction ids as [|x rest IH]; intros H tr.
  - cbn. rewrite app_nil_r. reflexivity.
  - destruct (H x (or_introl eq_refl)) as (t & ts & HD & HC).
    simpl updateNatLoop.
    unfold bind at 1, createRouteTable, routingTableBySubnetID.
    unfold bind at 2, bind at 1, call at 1. rewrite HD.
    cbn [err_of ret]. unfold from_option, bind. rewrite HC.
    rewrite IH by (intros y Hy; apply H; right; exact Hy).
    rewrite <- app_assoc. reflexivity.
Qed.

(** For any provider, when every listed subnet's lookup leaves the
    provider state as it is and returns tables the first of which
    [routeTableIsConfigured] reports configured (a [0.0.0.0/0] route to
    the NAT gateway comes before any route with a nil destination and any
    [0.0.0.0/0] route with a nil NAT gateway ID), [updateNat] issues one
    lookup per subnet, in order, and no other call, leaves the provider
    state as it was and returns [nil]. *)
Theorem updateNat_configured_lookups_only (S E : Type) (svc : EC2 S E) (ev : Event)
    (s : S) (tr : trace E) :
  (forall x, In x (slice_elems (RoutedNetworkAWSIDs ev)) ->
     exists t ts, DescribeRouteTables svc x s = (s, inr (t :: ts)) /\
                  routeTableIsConfigured t (NatGatewayAWSID ev) = Some true) ->
  updateNat S E svc ev (s, tr)
  = ((s, tr ++ map (fun x => (CDescribeRouteTables x, None)) (slice_elems (RoutedNetworkAWSIDs ev))),
     Some None).
Proof. intros H. apply updateNatLoop_configured_lookups. exact H. Qed.

(** [updateNat_configured_lookups_only] at a concrete run. *)
Lemma updateNat_configured_lookups_only_witness :
  (forall x, In x (slice_elems (RoutedNetworkAWSIDs testEvent)) ->
     exists t ts, DescribeRouteTables memEC2 x reconciledState = (reconciledState, inr (t :: ts)) /\
                  routeTableIsConfigured t (NatGatewayAWSID testEvent) = Some true) /\
  updateNat MemEC2 string memEC2 testEvent (reconciledState, [])
  = ((reconciledState, [(CDescribeRouteTables "subnet-00000001", None)]), Some None).
Proof.
  assert (H : forall x, In x (slice_elems (RoutedNetworkAWSIDs testEvent)) ->
     exists t ts, DescribeRouteTables memEC2 x reconciledState = (reconciledState, inr (t :: ts)) /\
                  routeTableIsConfigured t (NatGatewayAWSID testEvent) = Some true).
  { intros x Hx. destruct Hx as [<-|[]].
    exists (mkRouteTable "rtb-0" [natRoute "nat-0001"]), []. split; reflexivity. }
  split; [exact H|].
  exact (updateNat_configured_lookups_only MemEC2 string memEC2 testEvent reconciledState [] H).
Defined.

(** [Marshal]'s output is always one well-formed JSON object for the
    decoder's scanner, whose members are the written fields in order, each
    key the encoded field name and each value the encoded field value. *)
Theorem Marshal_wellformed (ev : Event) :
  checkValid (Marshal ev)
  = Some (JObject (map (fun f => (encString (fieldName f), jsonOf (getField f ev)))
                       (filter (fun f => negb (fieldOmitEmpty f && isEmptyValue (getField f ev)))
                               eventFields))).
Proof. exact (checkValid_Marshal ev). Qed.


(** [eventHandler] on a payload that decodes to a valid Event [n]: the
    reconciler runs with the client built from [n]'s region and
    credentials; its error is reported on the error subject with [n]
    carrying the error text, its success publishes [n] to the done
    subject, and its panic publishes nothing. *)
Theorem eventHandler_reconcile (S E : Type) newEC2 errText
    (data : string) (p : S * trace E) (bus : list Msg) (n : Event) :
  Unmarshal data zeroEvent = (n, None) ->
  Validate n = None ->
  eventHandler S E newEC2 errText jsonMarshal data (p, bus)
  = match updateNat S E (newEC2 (DatacenterRegion n) (DatacenterAccessKey n) (DatacenterAccessToken n)) n p with
    | (p', None) => ((p', bus), None)
    | (p', Some (Some e)) =>
      ((p', bus ++ [(subjectError, Marshal (setField F_ErrorMessage (FString (errText e)) n))]), Some tt)
    | (p', Some None) => ((p', bus ++ [(subjectDone, Marshal n)]), Some tt)
    end.
Proof.
  intros HU HV. rewrite (eventHandler_decoded S E newEC2 errText jsonMarshal data p bus n HU), HV.
  destruct (updateNat S E _ n p) as [p' [[e|]|]]; reflexivity.
Qed.

(** [eventHandler_reconcile] at a concrete run. *)
Lemma eventHandler_reconcile_witness :
  Unmarshal (Marshal testEvent) zeroEvent = (testEvent, None) /\
  Validate testEvent = None /\
  eventHandler MemEC2 string memClient (fun e => e) jsonMarshal (Marshal testEvent)
               ((mkMemEC2 [] 0, []), [])
  = match updateNat MemEC2 string memEC2 testEvent (mkMemEC2 [] 0, []) with
    | (p', None) => ((p', []), None)
    | (p', Some (Some e)) =>
      ((p', [(subjectError, Marshal (setField F_ErrorMessage (FString e) testEvent))]), Some tt)
    | (p', Some None) => ((p', [(subjectDone, Marshal testEvent)]), Some tt)
    end.
Proof.
  assert (H1 : Unmarshal (Marshal testEvent) zeroEvent = (testEvent, None)) by (vm_compute; reflexivity).
  assert (H2 : Validate testEvent = None) by reflexivity.
  split; [exact H1|]. split; [exact H2|].
  exact (eventHandler_reconcile MemEC2 string memClient (fun e => e) (Marshal testEvent)
           (mkMemEC2 [] 0, []) [] testEvent H1 H2).
Defined.

(** Every [eventHandler] run publishes at most one message, on the error
    or the done subject, and exactly one unless it panics; it panics only
    when the payload decoded to a valid Event and the reconciler
    panicked. *)
Theorem eventHandler_one_message (S E : Type) newEC2 errText
    (data : string) (p : S * trace E) (bus : list Msg) :
  let '((p', bus'), r) := eventHandler S E newEC2 errText jsonMarshal data (p, bus) in
  exists out, bus' = bus ++ out /\
    Forall (fun m => fst m = subjectError \/ fst m = subjectDone) out /\
    (r = Some tt -> length out = 1) /\
    (r = None -> out = [] /\
       exists n, Unmarshal data zeroEvent = (n, None) /\ Validate n = None /\
         snd (updateNat S E (newEC2 (DatacenterRegion n) (DatacenterAccessKey n) (DatacenterAccessToken n)) n p) = None).
Proof.
  unfold eventHandler, Process.
  destruct (Unmarshal data zeroEvent) as [n [e|]] eqn:HU; cbv iota beta.
  - exists [(subjectError, data)]. repeat split; try discriminate; try (intro Hx; discriminate Hx); auto.
  - destruct (Validate n) as [m|] eqn:HV; cbn [Error jsonMarshal].
    + eexists. repeat split; try discriminate; try (intro Hx; discriminate Hx); auto.
    + destruct (updateNat S E _ n p) as [p' [[e|]|]] eqn:HR; cbn [Error Complete jsonMarshal].
      * eexists. repeat split; try discriminate; try (intro Hx; discriminate Hx); auto.
      * eexists. repeat split; try discriminate; try (intro Hx; discriminate Hx); auto.
      * exists []. rewrite app_nil_r. split; [reflexivity|]. split; [constructor|].
        split; [intro Hx; discriminate Hx|].
        intros _. split; [reflexivity|]. exists n. rewrite HR. auto.
Qed.

(** For an Event whose strings are valid UTF-8, that passes [Validate]
    and whose reconciliation succeeds, [eventHandler] on its serialization
    publishes exactly those bytes to the done subject. *)
Theorem eventHandler_echo (S E : Type) newEC2 errText (e0 : Event)
    (p p' : S * trace E) (bus : list Msg) :
  eventValidUTF8 e0 = true ->
  Validate e0 = None ->
  updateNat S E (newEC2 (DatacenterRegion e0) (DatacenterAccessKey e0) (DatacenterAccessToken e0)) e0 p
    = (p', Some None) ->
  eventHandler S E newEC2 errText jsonMarshal (Marshal e0) (p, bus)
  = ((p', bus ++ [(subjectDone, Marshal e0)]), Some tt).
Proof.
  intros Hv HV HR.
  assert (HU : Unmarshal (Marshal e0) zeroEvent = (e0, None)).
  { apply Unmarshal_Marshal; [exact Hv|]. intros _; reflexivity. }
  rewrite (eventHandler_decoded S E newEC2 errText jsonMarshal (Marshal e0) p bus e0 HU), HV, HR.
  reflexivity.
Qed.

(** [eventHandler_echo] at a concrete run. *)
Lemma eventHandler_echo_witness :
  eventValidUTF8 testEvent = true /\
  Validate testEvent = None /\
  updateNat MemEC2 string (memClient (DatacenterRegion testEvent) (DatacenterAccessKey testEvent)
                             (DatacenterAccessToken testEvent)) testEvent (mkMemEC2 [] 0, [])
    = (fst (updateNat MemEC2 string memEC2 testEvent (mkMemEC2 [] 0, [])), Some None) /\
  eventHandler MemEC2 string memClient (fun e => e) jsonMarshal (Marshal testEvent)
               ((mkMemEC2 [] 0, []), [])
  = ((fst (updateNat MemEC2 string memEC2 testEvent (mkMemEC2 [] 0, [])),
      [(subjectDone, Marshal testEvent)]), Some tt).
Proof.
  assert (H1 : eventValidUTF8 testEvent = true) by (vm_compute; reflexivity).
  assert (H2 : Validate testEvent = None) by reflexivity.
  assert (H3 : updateNat MemEC2 string (memClient (DatacenterRegion testEvent) (DatacenterAccessKey testEvent)
                             (DatacenterAccessToken testEvent)) testEvent (mkMemEC2 [] 0, [])
    = (fst (updateNat MemEC2 string memEC2 testEvent (mkMemEC2 [] 0, [])), Some None)) by reflexivity.
  split; [exact H1|]. split; [exact H2|]. split; [exact H3|].
  exact (eventHandler_echo MemEC2 string memClient (fun e => e) testEvent (mkMemEC2 [] 0, [])
           _ [] H1 H2 H3).
Defined.

(** A JSON [null] payload decodes without error and leaves the zero
    Event: [eventHandler] makes no EC2 call and publishes the zero Event
    carrying [Datacenter VPC ID invalid] to the error subject. *)
Theorem eventHandler_null (S E : Type) newEC2 errText
    (data : string) (p : S * trace E) (bus : list Msg) :
  checkValid data = Some JNull ->
  eventHandler S E newEC2 errText jsonMarshal data (p, bus)
  = ((p, bus ++ [(subjectError,
                  Marshal (setField F_ErrorMessage (FString ErrDatacenterIDInvalid) zeroEvent))]),
     Some tt).
Proof.
  intros Hc.
  assert (HU : Unmarshal data zeroEvent = (zeroEvent, None)) by (unfold Unmarshal; rewrite Hc; reflexivity).
  rewrite (eventHandler_decoded S E newEC2 errText jsonMarshal data p bus zeroEvent HU).
  reflexivity.
Qed.

(** [eventHandler_null] at a concrete run. *)
Lemma eventHandler_null_witness :
  checkValid " null " = Some JNull /\
  eventHandler MemEC2 string memClient (fun e => e) jsonMarshal " null " ((mkMemEC2 [] 0, []), [])
  = (((mkMemEC2 [] 0, []),
      [(subjectError, Marshal (setField F_ErrorMessage (FString ErrDatacenterIDInvalid) zeroEvent))]),
     Some tt).
Proof.
  assert (H : checkValid " null " = Some JNull) by (vm_compute; reflexivity).
  split; [exact H|].
  exact (eventHandler_null MemEC2 string memClient (fun e => e) " null " (mkMemEC2 [] 0, []) [] H).
Defined.

Lemma getField_setField_other (f g : Field) (v : FieldValue) (ev : Event) :
  g <> f -> getField f (setField g v ev) = getField f ev.
Proof. intros H; destruct f, g, v; try reflexivity; congruence. Qed.

Lemma storeField_other (f g : Field) (ev ev' : Event) (v : JValue) e :
  g <> f -> storeField g ev v = Some (ev', e) -> getField f ev' = getField f ev.
Proof.
  intros Hf H. unfold storeField in H.
  destruct (getField g ev) as [cur|cur].
  - destruct (storeString cur v) as [[s e1]|]; cbn in H; [|discriminate].
    injection H as <- _. apply getField_setField_other; exact Hf.
  - destruct (storeSlice cur v) as [[l e1]|]; cbn in H; [|discriminate].
    injection H as <- _. apply getField_setField_other; exact Hf.
Qed.

Lemma decodeMembers_other (f : Field) (ms : list (string * JValue)) (ev : Event) saved :
  Forall (notKeyOf f) ms -> getField f (fst (decodeMembers ms ev saved)) = getField f ev.
Proof.
  revert ev saved; induction ms as [|[k v] ms IH]; intros ev saved H; [reflexivity|].
  inversion H as [|? ? Hk Hms]; subst. unfold notKeyOf in Hk; cbn [fst] in Hk.
  cbn [decodeMembers].
  destruct (unquote k) as [key|] eqn:Eu; [|reflexivity].
  destruct (findField key) as [g|] eqn:Ef; [|apply IH; exact Hms].
  destruct (storeField g ev v) as [[ev' e]|] eqn:Es; [|reflexivity].
  rewrite (IH ev' _ Hms).
  apply (storeField_other f g ev ev' v e); [|exact Es].
  intros ->. apply (Hk key eq_refl). exact Ef.
Qed.

(** [Process] leaves every field that no member of the payload's object
    selects as it was before the call: the payload is merged into the
    Event, not substituted for it. *)
Theorem Process_keeps_absent_fields (data : string) (ev : Event) (bus : list Msg) (f : Field) :
  (forall ms, checkValid data = Some (JObject ms) -> Forall (notKeyOf f) ms) ->
  getField f (fst (fst (Process data (ev, bus)))) = getField f ev.
Proof.
  intros H. unfold Process.
  assert (HU : getField f (fst (Unmarshal data ev)) = getField f ev).
  { unfold Unmarshal. destruct (checkValid data) as [v|] eqn:E; [|reflexivity].
    destruct v; try reflexivity. apply decodeMembers_other, H; reflexivity. }
  destruct (Unmarshal data ev) as [ev' [e|]]; exact HU.
Qed.

(** [Process_keeps_absent_fields] at a concrete run. *)
Lemma Process_keeps_absent_fields_witness :
  (forall ms, checkValid (sq "{'vpc_id':'vpc-1'}") = Some (JObject ms) -> Forall (notKeyOf F_UUID) ms) /\
  getField F_UUID (fst (fst (Process (sq "{'vpc_id':'vpc-1'}") (testEvent, [])))) = FString "test".
Proof.
  assert (H : forall ms, checkValid (sq "{'vpc_id':'vpc-1'}") = Some (JObject ms) ->
                         Forall (notKeyOf F_UUID) ms).
  { intros ms Hc. vm_compute in Hc. injection Hc as <-.
    constructor; [|constructor].
    intros key Hk. vm_compute in Hk. injection Hk as <-. vm_compute. discriminate. }
  split; [exact H|].
  exact (Process_keeps_absent_fields (sq "{'vpc_id':'vpc-1'}") testEvent [] F_UUID H).
Defined.
